(** * dummy-sls: the country service handlers of [src/handler.ts]

    A shallow embedding of the handlers [addCountry],
    [getAllCountriesPaginated], [getCountryNeighbors] and [addNeighbors] and
    of the repository functions under them, over an in-memory model of the
    two DynamoDB tables, followed by the properties the specification states
    about them. *)

From Stdlib Require Import ZArith QArith String Ascii List Bool Lia.
From stdpp Require Import gmap strings list fin_maps sorting.

Local Open Scope string_scope.
Local Open Scope Z_scope.
Local Open Scope list_scope.

(** ** JavaScript primitives used by the handlers *)

Module Js.

(** Numbers as the listing handler meets them: results of [parseInt] and
    of the arithmetic done on them.  Finite values are integers (exact
    arithmetic), [NegZero] is the [-0] that [parseInt("-0")] returns. *)
Inductive Num : Type :=
| NaN
| PosInf
| NegInf
| NegZero
| Int (z : Z).

Definition is_negative (x : Num) : bool :=
  match x with
  | NegInf | NegZero => true
  | Int z => z <? 0
  | NaN | PosInf => false
  end.

Definition is_zero (x : Num) : bool :=
  match x with
  | NegZero => true
  | Int z => z =? 0
  | _ => false
  end.

(** The mathematical value of a finite number. *)
Definition finite (x : Num) : option Z :=
  match x with
  | Int z => Some z
  | NegZero => Some 0
  | _ => None
  end.

Definition signed_zero (negative : bool) : Num :=
  if negative then NegZero else Int 0.

Definition signed_inf (negative : bool) : Num :=
  if negative then NegInf else PosInf.

(** [x - y] *)
Definition sub (x y : Num) : Num :=
  match x, y with
  | NaN, _ | _, NaN => NaN
  | PosInf, PosInf | NegInf, NegInf => NaN
  | PosInf, _ | _, NegInf => PosInf
  | NegInf, _ | _, PosInf => NegInf
  | NegZero, Int 0 => NegZero
  | NegZero, NegZero => Int 0
  | _, _ =>
      match finite x, finite y with
      | Some a, Some b => Int (a - b)
      | _, _ => NaN
      end
  end.

(** [x + y] *)
Definition add (x y : Num) : Num :=
  match x, y with
  | NaN, _ | _, NaN => NaN
  | PosInf, NegInf | NegInf, PosInf => NaN
  | PosInf, _ | _, PosInf => PosInf
  | NegInf, _ | _, NegInf => NegInf
  | NegZero, NegZero => NegZero
  | _, _ =>
      match finite x, finite y with
      | Some a, Some b => Int (a + b)
      | _, _ => NaN
      end
  end.

(** [x * y]: the sign of a zero product is the exclusive or of the signs. *)
Definition mul (x y : Num) : Num :=
  match finite x, finite y with
  | Some a, Some b =>
      if a * b =? 0
      then signed_zero (xorb (is_negative x) (is_negative y))
      else Int (a * b)
  | _, _ =>
      match x, y with
      | NaN, _ | _, NaN => NaN
      | _, _ =>
          if is_zero x || is_zero y then NaN
          else signed_inf (xorb (is_negative x) (is_negative y))
      end
  end.

(** [Math.ceil(x / y)] for integer-valued [x] and [y]; the quotient itself
    is not an integer, so the two steps are taken together. *)
Definition ceil_div (x y : Num) : Num :=
  match x, y with
  | NaN, _ | _, NaN => NaN
  | (PosInf | NegInf), (PosInf | NegInf) => NaN
  | (PosInf | NegInf), _ => signed_inf (xorb (is_negative x) (is_negative y))
  | _, (PosInf | NegInf) => signed_zero (xorb (is_negative x) (is_negative y))
  | _, _ =>
      match finite x, finite y with
      | Some a, Some b =>
          if b =? 0 then
            if a =? 0 then NaN
            else signed_inf (xorb (is_negative x) (is_negative y))
          else
            (* ceil (a / b) = - floor (- a / b) *)
            let q := - ((- a) / b) in
            if q =? 0
            then signed_zero (xorb (is_negative x) (is_negative y))
            else Int q
      | _, _ => NaN
      end
  end.

(** [x < y] *)
Definition lt (x y : Num) : bool :=
  match x, y with
  | NaN, _ | _, NaN => false
  | _, NegInf => false
  | NegInf, _ => true
  | PosInf, _ => false
  | _, PosInf => true
  | _, _ =>
      match finite x, finite y with
      | Some a, Some b => a <? b
      | _, _ => false
      end
  end.

(** [x > y] *)
Definition gt (x y : Num) : bool := lt y x.

(** ToIntegerOrInfinity, as [Array.prototype.slice] applies it to its
    arguments. *)
Inductive IntOrInf : Type :=
| Fin (z : Z)
| Inf (negative : bool).

Definition ToIntegerOrInfinity (x : Num) : IntOrInf :=
  match x with
  | NaN | NegZero => Fin 0
  | PosInf => Inf false
  | NegInf => Inf true
  | Int z => Fin z
  end.

(** The clamping of a relative index of [slice] into [0 .. len]. *)
Definition relative_index (len : Z) (i : IntOrInf) : Z :=
  match i with
  | Inf true => 0
  | Inf false => len
  | Fin z => if z <? 0 then Z.max (len + z) 0 else Z.min z len
  end.

(** [arr.slice(start, end)] *)
Definition slice {A : Type} (arr : list A) (start end_ : Num) : list A :=
  let len := Z.of_nat (length arr) in
  let k := relative_index len (ToIntegerOrInfinity start) in
  let final := relative_index len (ToIntegerOrInfinity end_) in
  take (Z.to_nat (Z.max (final - k) 0)) (drop (Z.to_nat k) arr).

(** *** [parseInt(string)] with no radix *)

(** White space skipped in front of the numeral (the ASCII part of
    StrWhiteSpaceChar). *)
Definition is_white_space (c : ascii) : bool :=
  let n := nat_of_ascii c in
  ((9 <=? n) && (n <=? 13))%nat || (n =? 32)%nat.

Fixpoint trim_start (s : string) : string :=
  match s with
  | String c s' => if is_white_space c then trim_start s' else s
  | EmptyString => s
  end.

(** The value of a digit in the given radix, if it is one. *)
Definition digit_value (radix : Z) (c : ascii) : option Z :=
  let n := Z.of_nat (nat_of_ascii c) in
  let v :=
    if (48 <=? n) && (n <=? 57) then Some (n - 48)
    else if (97 <=? n) && (n <=? 122) then Some (n - 97 + 10)
    else if (65 <=? n) && (n <=? 90) then Some (n - 65 + 10)
    else None in
  match v with
  | Some d => if d <? radix then Some d else None
  | None => None
  end.

(** Reads the longest prefix of digits; [acc] is [None] until a digit has
    been read. *)
Fixpoint read_digits (radix : Z) (acc : option Z) (s : string) : option Z :=
  match s with
  | String c s' =>
      match digit_value radix c with
      | Some d =>
          read_digits radix
            (Some (match acc with Some a => a * radix + d | None => d end)) s'
      | None => acc
      end
  | EmptyString => acc
  end.

Definition strip_sign (s : string) : bool * string :=
  match s with
  | String "-" s' => (true, s')
  | String "+" s' => (false, s')
  | _ => (false, s)
  end.

Definition strip_hex_prefix (s : string) : Z * string :=
  match s with
  | String "0" (String "x" s') => (16, s')
  | String "0" (String "X" s') => (16, s')
  | _ => (10, s)
  end.

Definition parseInt (s : string) : Num :=
  let '(negative, s1) := strip_sign (trim_start s) in
  let '(radix, s2) := strip_hex_prefix s1 in
  match read_digits radix None s2 with
  | None => NaN
  | Some m =>
      if m =? 0 then signed_zero negative
      else Int (if negative then - m else m)
  end.

End Js.

(** ** Data model *)

(** An item of [CountryTable].  The handlers treat items as untyped JSON
    objects; the fields they read are kept, each one optional. *)
Record Country : Type := {
  countryID : option string;
  name : option string;
  capital : option string;
  region : option string;
  currency : option string;
  subregion : option string;
  population : option Q;
  area : option Q
}.

(** The two tables.  [CountryTable] has the hash key [countryID];
    [NeighborsTable] has the hash key [countryID] and the range key
    [neighborId], and its items carry nothing but the key. *)
Record Store : Type := {
  CountryTable : gmap string Country;
  NeighborsTable : gset (string * string)
}.

Definition empty_store : Store :=
  {| CountryTable := ∅; NeighborsTable := ∅ |}.

(** Exceptions thrown inside the handlers.  [HttpError code e] is
    [new HttpError(code, { error: e })]. *)
Inductive Exn : Type :=
| HttpError (statusCode : Z) (error : string)
| SyntaxError
| Error (message : string).

Inductive Result (A : Type) : Type :=
| Ok (a : A)
| Throw (e : Exn).
Arguments Ok {A} a.
Arguments Throw {A} e.

Definition bind {A B : Type} (r : Result A) (k : A -> Result B) : Result B :=
  match r with
  | Ok a => k a
  | Throw e => Throw e
  end.

Notation "'let*' x ':=' r 'in' k" := (bind r (fun x => k))
  (at level 10, x name, r at level 100, k at level 200).

(** [Promise.all(xs.map(f))]: the results in order, or the first rejection. *)
Fixpoint all_map {A B : Type} (f : A -> Result B) (xs : list A) : Result (list B) :=
  match xs with
  | [] => Ok []
  | x :: xs' =>
      let* y := f x in
      let* ys := all_map f xs' in
      Ok (y :: ys)
  end.

(** [error.statusCode] as the [catch] blocks read it. *)
Definition exn_statusCode (e : Exn) : option Z :=
  match e with
  | HttpError code _ => Some code
  | SyntaxError | Error _ => None
  end.

(** ** Repository functions *)

(** [fetchCountryById] *)
Definition fetchCountryById (st : Store) (id : string) : Result Country :=
  match CountryTable st !! id with
  | Some item => Ok item
  | None => Throw (HttpError 404 "not found")
  end.

(** [fetchAllCountryIds]: a scan projecting [countryID]; the key of an item
    is its [countryID]. *)
Definition fetchAllCountryIds (st : Store) : list string :=
  (map_to_list (CountryTable st)).*1.

(** [fetchNeighbor]: a point lookup on the compound key. *)
Definition fetchNeighbor (st : Store) (countryID neighborId : string) : bool :=
  bool_decide ((countryID, neighborId) ∈ NeighborsTable st).

(** [addNeighbor]: an unconditional put. *)
Definition addNeighbor (st : Store) (countryID neighborId : string) : Store :=
  {| CountryTable := CountryTable st;
     NeighborsTable := {[ (countryID, neighborId) ]} ∪ NeighborsTable st |}.

Definition string_le (a b : string) : Prop := Is_true (String.leb a b).

#[global] Instance string_le_dec (a b : string) : Decision (string_le a b).
Proof. unfold string_le. apply _. Defined.

(** [fetchNeighborsByCountryId]: a query on the hash key; the items come
    back in the order of the range key. *)
Definition fetchNeighborsByCountryId (st : Store) (countryID : string) : list string :=
  merge_sort string_le
    ((filter (fun item => item.1 = countryID) (elements (NeighborsTable st))).*2).

(** A handler's answer: [statusCode] is optional because two [catch] blocks
    copy it from the exception, which may have none. *)
Record Response (B : Type) : Type := {
  statusCode : option Z;
  body : B
}.
Arguments statusCode {B} r.
Arguments body {B} r.

(** ** [addCountry] *)

(** [yup.string().required()]: the field is present and not the empty
    string. *)
Definition required (v : option string) : bool :=
  match v with
  | Some s => negb (String.eqb s "")
  | None => false
  end.

(** [countrySchema] *)
Definition countrySchema_validate (c : Country) : bool :=
  required (name c) && required (capital c) && required (region c)
  && required (currency c).

(** [event.body] as [addCountry] tells its cases apart. *)
Inductive CountriesRequest : Type :=
| BodyMissing
| BodyMalformed
| BodyNotArray
| BodyArray (requestBody : list Country).

Inductive AddCountryBody : Type :=
| CreatedCountries (countries : list Country)
| AddCountryError (message : string) (error : Exn).

(** [{ ...country, countryID: id }] *)
Definition with_countryID (country : Country) (id : string) : Country :=
  {| countryID := Some id;
     name := name country;
     capital := capital country;
     region := region country;
     currency := currency country;
     subregion := subregion country;
     population := population country;
     area := area country |}.

(** One [PutRequest] on [CountryTable]; the key is read from the item. *)
Definition put_country (tbl : gmap string Country) (item : Country) : gmap string Country :=
  match countryID item with
  | Some id => <[id := item]> tbl
  | None => tbl
  end.

(** [docClient.batchWrite] of put requests on [CountryTable]. *)
Definition batchWrite (st : Store) (items : list Country) : Store :=
  {| CountryTable := foldl put_country (CountryTable st) items;
     NeighborsTable := NeighborsTable st |}.

(** The [try] block of [addCountry]; [v4 i] is the identifier the [i]-th
    call of [v4()] of this request returns.  The message of a validation
    failure stops at the prefix the handler writes; the text yup appends to
    it is left out. *)
Definition addCountry_try (v4 : nat -> string) (st : Store) (event_body : CountriesRequest)
  : Result (Store * list Country) :=
  let* requestBody :=
    match event_body with
    | BodyMissing => Throw (Error "Request body is missing")
    | BodyMalformed => Throw SyntaxError
    | BodyNotArray => Throw (Error "Request body should be an array of countries.")
    | BodyArray requestBody => Ok requestBody
    end in
  let* isValid :=
    all_map (fun country =>
               if countrySchema_validate country then Ok true
               else Throw (Error "Validation error for country"))
            requestBody in
  if negb (forallb (fun valid => valid) isValid)
  then Throw (Error "One or more countries failed validation.")
  else
    let countries := imap (fun i country => with_countryID country (v4 i)) requestBody in
    Ok (batchWrite st countries, countries).

Definition addCountry (v4 : nat -> string) (st : Store) (event_body : CountriesRequest)
  : Store * Response AddCountryBody :=
  match addCountry_try v4 st event_body with
  | Ok (st', countries) =>
      (st', {| statusCode := Some 201; body := CreatedCountries countries |})
  | Throw error =>
      (st, {| statusCode := Some 500;
              body := AddCountryError "Internal Server Error" error |})
  end.

(** ** [getAllCountriesPaginated] *)

(** [s] occurs in [t] as a substring, case-sensitively. *)
Fixpoint substring_of (s t : string) : bool :=
  String.prefix s t ||
  match t with
  | String _ t' => substring_of s t'
  | EmptyString => false
  end.

(** DynamoDB's [contains(path, operand)] on a string attribute: false when
    the attribute is absent, otherwise a case-sensitive substring test. *)
Definition contains (attr : option string) (operand : string) : bool :=
  match attr with
  | Some s => substring_of operand s
  | None => false
  end.

(** The [FilterExpression] of the listing. *)
Definition FilterExpression (operand : string) (item : Country) : bool :=
  contains (name item) operand || contains (region item) operand
  || contains (subregion item) operand.

(** [docClient.scan] on [CountryTable], with the filter when there is one.
    The scan is taken to return the whole table in one call; the order of the
    items is the store's. *)
Definition scan (st : Store) (filter_operand : option string) : list Country :=
  let items := (map_to_list (CountryTable st)).*2 in
  match filter_operand with
  | Some operand => filter (fun item => Is_true (FilterExpression operand item)) items
  | None => items
  end.

Inductive SortKey : Type :=
| SortName
| SortPopulation
| SortArea.

(** The [switch] on [sort_by]. *)
Definition sort_criteria (sort_by : string) : SortKey * Z :=
  if String.eqb sort_by "a_to_z" then (SortName, 1)
  else if String.eqb sort_by "z_to_a" then (SortName, -1)
  else if String.eqb sort_by "population_high_to_low" then (SortPopulation, -1)
  else if String.eqb sort_by "population_low_to_high" then (SortPopulation, 1)
  else if String.eqb sort_by "area_high_to_low" then (SortArea, -1)
  else if String.eqb sort_by "area_low_to_high" then (SortArea, 1)
  else (SortName, 1).

(** [a < b] of JavaScript on two field values of one type: [undefined]
    converts to [NaN], which is below nothing and above nothing. *)
Definition lt_undefined {A : Type} (lt : A -> A -> bool) (a b : option A) : bool :=
  match a, b with
  | Some x, Some y => lt x y
  | _, _ => false
  end.

Definition Qlt_bool (x y : Q) : bool := negb (Qle_bool y x).

(** [a[sortKey] < b[sortKey]] *)
Definition field_lt (sortKey : SortKey) (a b : Country) : bool :=
  match sortKey with
  | SortName => lt_undefined String.ltb (name a) (name b)
  | SortPopulation => lt_undefined Qlt_bool (population a) (population b)
  | SortArea => lt_undefined Qlt_bool (area a) (area b)
  end.

(** Whether [a[sortKey]] is [undefined]. *)
Definition field_missing (sortKey : SortKey) (a : Country) : bool :=
  match sortKey with
  | SortName => match name a with None => true | Some _ => false end
  | SortPopulation => match population a with None => true | Some _ => false end
  | SortArea => match area a with None => true | Some _ => false end
  end.

(** The comparator handed to [sort]. *)
Definition comparator (sortKey : SortKey) (sortDirection : Z) (a b : Country) : Z :=
  if field_lt sortKey a b then -1 * sortDirection
  else if field_lt sortKey b a then 1 * sortDirection
  else 0.

(** [Array.prototype.sort(cmp)]: a stable sort, here by insertion.  For a
    comparator that is a consistent ordering every stable sort gives this
    result. *)
Fixpoint sort_insert {A : Type} (cmp : A -> A -> Z) (x : A) (l : list A) : list A :=
  match l with
  | [] => [x]
  | y :: l' => if 0 <? cmp x y then y :: sort_insert cmp x l' else x :: l
  end.

Fixpoint Array_sort {A : Type} (cmp : A -> A -> Z) (l : list A) : list A :=
  match l with
  | [] => []
  | x :: l' => sort_insert cmp x (Array_sort cmp l')
  end.

(** [event.queryStringParameters]; an absent object is the record of four
    absent parameters. *)
Record QueryStringParameters : Type := {
  page : option string;
  limit : option string;
  sort_by : option string;
  search : option string
}.

Module Listing.
(** The [data] object of the 200 answer. *)
Record Data : Type := {
  list : list Country;
  has_next : bool;
  has_prev : bool;
  page : Js.Num;
  pages : Js.Num;
  per_page : Js.Num;
  total : Js.Num
}.

Inductive Body : Type :=
| CountryList (message : string) (data : Data)
| Failure (message : string).
End Listing.

Section Listing.

(** [RegExp_source pattern] is [new RegExp(pattern, "i").source], or
    [None] when the constructor throws its [SyntaxError].  The builtin is
    a parameter of the listing. *)
Variable RegExp_source : string -> option string.

(** The search block: the operand bound to [:search], when [search] is
    truthy. *)
Definition search_operand (search : option string) : Result (option string) :=
  match search with
  | None => Ok None
  | Some s =>
      if String.eqb s "" then Ok None
      else
        match RegExp_source s with
        | Some source => Ok (Some source)
        | None => Throw SyntaxError
        end
  end.

Definition getAllCountriesPaginated (st : Store) (q : QueryStringParameters)
  : Response Listing.Body :=
  let page := default "1" (page q) in
  let limit := default "10" (limit q) in
  let sort_by := default "a_to_z" (sort_by q) in
  let skip := Js.mul (Js.sub (Js.parseInt page) (Js.Int 1)) (Js.parseInt limit) in
  let '(sortKey, sortDirection) := sort_criteria sort_by in
  match search_operand (search q) with
  | Ok operand =>
      let Items := Array_sort (comparator sortKey sortDirection) (scan st operand) in
      let totalCountries := Js.Int (Z.of_nat (length Items)) in
      let totalPages := Js.ceil_div totalCountries (Js.parseInt limit) in
      let countries := Js.slice Items skip (Js.add skip (Js.parseInt limit)) in
      let hasNext := Js.lt (Js.parseInt page) totalPages in
      let hasPrev := Js.gt (Js.parseInt page) (Js.Int 1) in
      {| statusCode := Some 200;
         body := Listing.CountryList "Country list"
                   {| Listing.list := countries;
                      Listing.has_next := hasNext;
                      Listing.has_prev := hasPrev;
                      Listing.page := Js.parseInt page;
                      Listing.pages := totalPages;
                      Listing.per_page := Js.parseInt limit;
                      Listing.total := totalCountries |} |}
  | Throw _ =>
      {| statusCode := Some 500;
         body := Listing.Failure "Internal Server Error" |}
  end.

End Listing.

(** ** [getCountryNeighbors] *)

(** The public shape of a neighbor: [{id, name, currency, capital, region}]. *)
Record NeighborView : Type := {
  view_id : option string;
  view_name : option string;
  view_currency : option string;
  view_capital : option string;
  view_region : option string
}.

Definition neighbor_view (neighbor : Country) : NeighborView :=
  {| view_id := countryID neighbor;
     view_name := name neighbor;
     view_currency := currency neighbor;
     view_capital := capital neighbor;
     view_region := region neighbor |}.

Inductive NeighborsBody : Type :=
| NeighborCountries (message : string) (countries : list NeighborView)
| NeighborsError (message : string) (error : Exn).

(** The [try] block.  [fetchCountryById] returns an item or throws, so the
    [if (!country)] answer of the source is never taken and has no
    counterpart here. *)
Definition getCountryNeighbors_try (st : Store) (countryID : string)
  : Result (Response NeighborsBody) :=
  let* country := fetchCountryById st countryID in
  let neighbors := fetchNeighborsByCountryId st countryID in
  if (length neighbors =? 0)%nat then
    Ok {| statusCode := Some 200;
          body := NeighborCountries "Country neighbours" [] |}
  else
    let* neighborCountries :=
      all_map (fun neighborId =>
                 let* neighbor := fetchCountryById st neighborId in
                 Ok (neighbor_view neighbor))
              neighbors in
    Ok {| statusCode := Some 200;
          body := NeighborCountries "Neighbour countries list" neighborCountries |}.

Definition getCountryNeighbors (st : Store) (countryID : string)
  : Response NeighborsBody :=
  match getCountryNeighbors_try st countryID with
  | Ok response => response
  | Throw error =>
      {| statusCode := exn_statusCode error;
         body := NeighborsError "Some Error" error |}
  end.

(** ** [addNeighbors] *)

Inductive AddNeighborsBody : Type :=
(** [{message, data: {neighbors: [], errors}}] *)
| NoneAdded (message : string) (neighbors : list string) (errors : list string)
(** [{message, data: {neighbors}, errors}] *)
| SomeAdded (message : string) (neighbors : list string) (errors : list string)
| AddNeighborsError (message : string) (error : Exn).

Definition invalid_neighbor_error (neighborId : string) : string :=
  "Invalid neighbor country ID: " +:+ neighborId.

Definition existing_neighbor_error (neighborId : string) : string :=
  "Neighbor with ID " +:+ neighborId +:+ " already exists for this country".

(** The [for] loop over [neighborData], with its two accumulators. *)
Fixpoint addNeighbors_loop (existingCountryIds : list string) (countryID : string)
    (neighborData : list string)
    (st : Store) (errors successfulAdditions : list string)
  : Store * list string * list string :=
  match neighborData with
  | [] => (st, errors, successfulAdditions)
  | neighborId :: rest =>
      if negb (bool_decide (neighborId ∈ existingCountryIds)) then
        addNeighbors_loop existingCountryIds countryID rest st
          (errors ++ [invalid_neighbor_error neighborId]) successfulAdditions
      else if fetchNeighbor st countryID neighborId then
        addNeighbors_loop existingCountryIds countryID rest st
          (errors ++ [existing_neighbor_error neighborId]) successfulAdditions
      else
        addNeighbors_loop existingCountryIds countryID rest
          (addNeighbor st countryID neighborId)
          errors (successfulAdditions ++ [neighborId])
  end.

(** The handler, for a body that parses to [{neighbors: [{neighborId}, ...]}];
    [neighborData] lists the [neighborId]s. *)
Definition addNeighbors (st : Store) (countryID : string) (neighborData : list string)
  : Store * Response AddNeighborsBody :=
  match fetchCountryById st countryID with
  | Throw error =>
      (st, {| statusCode := exn_statusCode error;
              body := AddNeighborsError "Internal Server Error" error |})
  | Ok country =>
      let existingCountryIds := fetchAllCountryIds st in
      let '(st', errors, successfulAdditions) :=
        addNeighbors_loop existingCountryIds countryID neighborData st [] [] in
      if (length successfulAdditions =? 0)%nat then
        (st', {| statusCode := Some 400;
                 body := NoneAdded "Failed to add neighbors" [] errors |})
      else
        (st', {| statusCode := Some 200;
                 body := SomeAdded "Neighbors added successfully"
                           successfulAdditions errors |})
  end.

(** What a response of [addNeighbors] reports as added and as errors. *)
Definition reported_neighbors (b : AddNeighborsBody) : list string :=
  match b with
  | NoneAdded _ neighbors _ | SomeAdded _ neighbors _ => neighbors
  | AddNeighborsError _ _ => []
  end.

Definition reported_errors (b : AddNeighborsBody) : list string :=
  match b with
  | NoneAdded _ _ errors | SomeAdded _ _ errors => errors
  | AddNeighborsError _ _ => []
  end.

(** ** [getCountryByID] and [handleError] *)

(** What a [catch] block may hand to [handleError]: a [ValidationError] of
    yup with its [errors], or one of the exceptions of [Exn]. *)
Inductive Caught : Type :=
| ValidationError (errors : list string)
| Thrown (e : Exn).

(** The bodies [handleError] writes: [{errors}] for a validation error,
    [{error: 'invalid request body format : ...'}] for a [SyntaxError] (the
    message of the engine is left out), and the message of an [HttpError],
    which is its [{error}] object. *)
Inductive HandledBody : Type :=
| ValidationErrors (errors : list string)
| InvalidRequestBody
| HttpErrorBody (error : string).

(** [handleError]: three kinds of exception become an answer; anything else
    is thrown again. *)
Definition handleError (e : Caught) : Result (Response HandledBody) :=
  match e with
  | ValidationError errors =>
      Ok {| statusCode := Some 400; body := ValidationErrors errors |}
  | Thrown SyntaxError =>
      Ok {| statusCode := Some 400; body := InvalidRequestBody |}
  | Thrown (HttpError code error) =>
      Ok {| statusCode := Some code; body := HttpErrorBody error |}
  | Thrown other => Throw other
  end.

Inductive CountryByIDBody : Type :=
| CountryItem (country : Country)
| Handled (b : HandledBody).

(** [getCountryByID]; the handler itself throws when [handleError] does. *)
Definition getCountryByID (st : Store) (id : string) : Result (Response CountryByIDBody) :=
  match fetchCountryById st id with
  | Ok country => Ok {| statusCode := Some 200; body := CountryItem country |}
  | Throw e =>
      let* response := handleError (Thrown e) in
      Ok {| statusCode := statusCode response; body := Handled (body response) |}
  end.

(** ** Definitions for the statements *)

(** Both ends of every stored relation are keys of [CountryTable]. *)
Definition referential_integrity (st : Store) : Prop :=
  forall countryID neighborId,
    (countryID, neighborId) ∈ NeighborsTable st ->
    is_Some (CountryTable st !! countryID) /\
    is_Some (CountryTable st !! neighborId).

(** The handlers that write; the three others leave the store alone. *)
Inductive step : Store -> Store -> Prop :=
| step_addCountry v4 st event_body :
    step st (addCountry v4 st event_body).1
| step_addNeighbors st countryID neighborData :
    step st (addNeighbors st countryID neighborData).1.

(** The stores the handlers can build from the empty tables. *)
Inductive reachable : Store -> Prop :=
| reachable_empty : reachable empty_store
| reachable_step st st' : reachable st -> step st st' -> reachable st'.

(** A required field is missing when it is absent or the empty string. *)
Definition missing (v : option string) : Prop := v = None \/ v = Some "".

Definition missing_required_field (c : Country) : Prop :=
  missing (name c) \/ missing (capital c) \/ missing (region c)
  \/ missing (currency c).

(** The ceiling of [t / l] for a positive [l]. *)
Definition ceiling (t l : Z) : Z := (t + l - 1) / l.

(** The two error strings in the words of the specification. *)
Definition spec_invalid_neighbor_error (neighborId : string) : string :=
  "invalid neighbor country id: " +:+ neighborId.

Definition spec_existing_neighbor_error (neighborId : string) : string :=
  "neighbor " +:+ neighborId +:+ " already exists for this country".

(** The lower-case form of an ASCII letter. *)
Definition to_lower (c : ascii) : ascii :=
  let n := nat_of_ascii c in
  if ((65 <=? n) && (n <=? 90))%nat then ascii_of_nat (n + 32) else c.

Fixpoint toLowerCase (s : string) : string :=
  match s with
  | String c s' => String (to_lower c) (toLowerCase s')
  | EmptyString => EmptyString
  end.

(** The filter in the words of the specification: the search text occurs in
    [name], [region] or [subregion], letter case set aside. *)
Definition spec_contains (attr : option string) (search : string) : bool :=
  match attr with
  | Some s => substring_of (toLowerCase search) (toLowerCase s)
  | None => false
  end.

Definition spec_matches (search : string) (item : Country) : bool :=
  spec_contains (name item) search || spec_contains (region item) search
  || spec_contains (subregion item) search.

(** Every stored item passed [countrySchema] and sits under its own
    [countryID]. *)
Definition countries_well_formed (st : Store) : Prop :=
  forall k item, CountryTable st !! k = Some item ->
    countrySchema_validate item = true /\ countryID item = Some k.

(** The order the comparator aims at, between two records that both have
    the sort field: for a positive direction [a] is not above [b], for a
    negative one [a] is not below [b]. *)
Definition in_order (sortKey : SortKey) (sortDirection : Z) (a b : Country) : Prop :=
  field_missing sortKey a = false /\ field_missing sortKey b = false /\
  (if 0 <? sortDirection then field_lt sortKey b a = false
   else field_lt sortKey a b = false).

(** The six values of [sort_by] the [switch] knows. *)
Definition known_sort_by : list string :=
  ["a_to_z"; "z_to_a"; "population_high_to_low"; "population_low_to_high";
   "area_high_to_low"; "area_low_to_high"].

(** ** Example data *)

Definition example_country (id nm rg : string) (pop : option Q) : Country :=
  {| countryID := Some id; name := Some nm; capital := Some "Capital";
     region := Some rg; currency := Some "EUR"; subregion := None;
     population := pop; area := None |}.

Definition Alpha : Country := example_country "A" "Alpha" "Asia" (Some (10 # 1)).
Definition Beta : Country := example_country "B" "Beta" "Europe" (Some (20 # 1)).

(** A store with the countries [A] and [B] and no relation. *)
Definition two_countries : Store :=
  {| CountryTable := <["A" := Alpha]> (<["B" := Beta]> ∅);
     NeighborsTable := ∅ |}.

(** [two_countries] with the relation from [A] to [B]. *)
Definition A_to_B : Store :=
  {| CountryTable := CountryTable two_countries;
     NeighborsTable := {[ ("A", "B") ]} |}.

(** [two_countries] with a relation from [A] to [Z], which is no country. *)
Definition dangling_relation : Store :=
  {| CountryTable := CountryTable two_countries;
     NeighborsTable := {[ ("A", "Z") ]} |}.

(** The identifiers [v4()] returns in the examples. *)
Definition example_v4 (i : nat) : string :=
  match i with
  | O => "id-0"
  | _ => "id-1"
  end.

Definition example_batch : list Country :=
  [example_country "ignored" "Alpha" "Asia" None;
   example_country "ignored" "Beta" "Europe" None].

(** A store built by the handlers: two countries, then a relation. *)
Definition built_store : Store :=
  (addNeighbors (addCountry example_v4 empty_store (BodyArray example_batch)).1
     "id-0" ["id-1"]).1.

(** A batch whose second record has no name. *)
Definition nameless_batch : list Country :=
  [example_country "ignored" "Alpha" "Asia" None;
   {| countryID := None; name := None; capital := Some "Capital";
      region := Some "Europe"; currency := Some "EUR"; subregion := None;
      population := None; area := None |}].

(** A stored item that has no [name]. *)
Definition Nameless : Country :=
  {| countryID := Some "N"; name := None; capital := Some "Capital";
     region := Some "Europe"; currency := Some "EUR"; subregion := None;
     population := None; area := None |}.

Definition is_word_character (c : ascii) : bool :=
  let n := nat_of_ascii c in
  (((48 <=? n) && (n <=? 57)) || ((65 <=? n) && (n <=? 90))
   || ((97 <=? n) && (n <=? 122)) || (n =? 32))%nat.

Fixpoint all_word_characters (s : string) : bool :=
  match s with
  | String c s' => is_word_character c && all_word_characters s'
  | EmptyString => true
  end.

(** An instance of the [RegExp_source] parameter for the examples.  A
    non-empty pattern of letters, digits and spaces is its own source in
    every ECMAScript engine, and the source of the empty pattern is "(?:)";
    the examples use no other pattern but "(", which the constructor rejects,
    and the instance rejects whatever is not of the first two kinds. *)
Definition words_RegExp_source (pattern : string) : option string :=
  match pattern with
  | EmptyString => Some "(?:)"
  | _ => if all_word_characters pattern then Some pattern else None
  end.

(** The second page of one-record pages over [two_countries]. *)
Definition second_page : QueryStringParameters :=
  {| page := Some "2"; limit := Some "1"; sort_by := Some "z_to_a"; search := None |}.

Definition page_abc : QueryStringParameters :=
  {| page := Some "abc"; limit := None; sort_by := None; search := None |}.

Definition no_parameters : QueryStringParameters :=
  {| page := None; limit := None; sort_by := None; search := None |}.

Definition search_alpha : QueryStringParameters :=
  {| page := None; limit := None; sort_by := None; search := Some "alpha" |}.

Definition search_open_paren : QueryStringParameters :=
  {| page := None; limit := None; sort_by := None; search := Some "(" |}.

Definition search_empty : QueryStringParameters :=
  {| page := None; limit := None; sort_by := None; search := Some "" |}.

Definition sort_by_unknown : QueryStringParameters :=
  {| page := None; limit := None; sort_by := Some "newest"; search := None |}.

Definition limit_zero : QueryStringParameters :=
  {| page := Some "3"; limit := Some "0"; sort_by := None; search := None |}.

Definition page_minus_one : QueryStringParameters :=
  {| page := Some "-1"; limit := Some "1"; sort_by := None; search := None |}.

(** * Properties *)

(** ** JavaScript primitives *)

Example parseInt_10 : Js.parseInt "10" = Js.Int 10.
Proof. reflexivity. Qed.

Example parseInt_prefix : Js.parseInt "  -12px" = Js.Int (-12).
Proof. reflexivity. Qed.

Example parseInt_hex : Js.parseInt "0x1f" = Js.Int 31.
Proof. reflexivity. Qed.

Example parseInt_abc : Js.parseInt "abc" = Js.NaN.
Proof. reflexivity. Qed.

Example parseInt_negzero : Js.parseInt "-0" = Js.NegZero.
Proof. reflexivity. Qed.

Example slice_NaN : Js.slice [1; 2; 3] Js.NaN Js.NaN = [].
Proof. reflexivity. Qed.

Example slice_window : Js.slice [1; 2; 3; 4; 5] (Js.Int 2) (Js.Int 4) = [3; 4].
Proof. reflexivity. Qed.

Example slice_negative : Js.slice [1; 2; 3; 4; 5] (Js.Int (-2)) (Js.Int 10) = [4; 5].
Proof. reflexivity. Qed.

(** ** The loop of [addNeighbors] *)

Section Loop.

Variable existingCountryIds : list string.
Variable countryID : string.

Local Abbreviation loop := (addNeighbors_loop existingCountryIds countryID).

(** The accumulators are only appended to. *)
Lemma addNeighbors_loop_acc neighborData st errors added :
  loop neighborData st errors added =
  let '(st', e, a) := loop neighborData st [] [] in
  (st', errors ++ e, added ++ a).
Proof.
  revert st errors added.
  induction neighborData as [|n rest IH]; intros st errors added; simpl.
  - by rewrite !app_nil_r.
  - destruct (negb _); [|destruct (fetchNeighbor _ _ _)].
    + rewrite (IH st (errors ++ _)), (IH st [_]).
      destruct (loop rest st [] []) as [[st' e] a].
      by rewrite <- !app_assoc.
    + rewrite (IH st (errors ++ _)), (IH st [_]).
      destruct (loop rest st [] []) as [[st' e] a].
      by rewrite <- !app_assoc.
    + rewrite (IH _ errors (added ++ _)), (IH _ [] [_]).
      destruct (loop rest _ [] []) as [[st' e] a].
      by rewrite <- !app_assoc.
Qed.

(** Processing a batch in two parts: the second part starts from the store
    the first part leaves, whatever the first part rejected. *)
Lemma addNeighbors_loop_app l1 l2 st errors added :
  loop (l1 ++ l2) st errors added =
  let '(st1, e1, a1) := loop l1 st errors added in
  loop l2 st1 e1 a1.
Proof.
  revert st errors added.
  induction l1 as [|n rest IH]; intros st errors added; simpl; [done|].
  destruct (negb _); [|destruct (fetchNeighbor _ _ _)]; apply IH.
Qed.

(** Every element lands in exactly one of the two lists. *)
Lemma addNeighbors_loop_length neighborData st errors added st' e a :
  loop neighborData st errors added = (st', e, a) ->
  (length e + length a = length errors + length added + length neighborData)%nat.
Proof.
  revert st errors added.
  induction neighborData as [|n rest IH]; intros st errors added; simpl.
  - intros [= <- <- <-]. lia.
  - destruct (negb _); [|destruct (fetchNeighbor _ _ _)];
      intros H; apply IH in H; rewrite ?length_app in H; simpl in H; lia.
Qed.

(** The loop writes the relations it reports as added, and nothing else. *)
Lemma addNeighbors_loop_store neighborData st errors added st' e a :
  loop neighborData st errors added = (st', e, a) ->
  CountryTable st' = CountryTable st /\
  exists new, a = added ++ new /\
    NeighborsTable st' = list_to_set (pair countryID <$> new) ∪ NeighborsTable st /\
    forall n, n ∈ new -> n ∈ existingCountryIds /\ n ∈ neighborData.
Proof.
  revert st errors added.
  induction neighborData as [|n rest IH]; intros st errors added; simpl.
  - intros [= <- <- <-]. split; [done|]. exists []. rewrite app_nil_r.
    split; [done|]. split; [by rewrite fmap_nil, list_to_set_nil, union_empty_l_L|].
    intros n Hn. by apply elem_of_nil in Hn.
  - destruct (negb _) eqn:Hin; [|destruct (fetchNeighbor _ _ _)]; intros H;
      apply IH in H as (Hc & new & -> & Hn & Hnew).
    + split; [done|]. exists new. repeat split; try done;
        [by apply Hnew | apply elem_of_cons; right; by apply Hnew].
    + split; [done|]. exists new. repeat split; try done;
        [by apply Hnew | apply elem_of_cons; right; by apply Hnew].
    + split; [done|]. exists (n :: new). rewrite <- app_assoc. split; [done|].
      split.
      * rewrite Hn, fmap_cons, list_to_set_cons. simpl.
        apply set_eq; intros x. rewrite !elem_of_union. tauto.
      * intros m [->|Hm]%elem_of_cons.
        -- apply negb_false_iff, bool_decide_eq_true in Hin.
           split; [done|]. apply elem_of_cons; by left.
        -- split; [by apply Hnew|]. apply elem_of_cons; right. by apply Hnew.
Qed.

End Loop.

(** ** [addNeighbors] *)

Lemma elem_of_fetchAllCountryIds st id :
  id ∈ fetchAllCountryIds st <-> is_Some (CountryTable st !! id).
Proof.
  unfold fetchAllCountryIds. rewrite list_elem_of_fmap. split.
  - intros ([k item] & -> & H%elem_of_map_to_list). by exists item.
  - intros [item H]. exists (id, item). split; [done|].
    by apply elem_of_map_to_list.
Qed.

(** The handler once the source country has resolved. *)
Lemma addNeighbors_resolved st countryID neighborData :
  is_Some (CountryTable st !! countryID) ->
  addNeighbors st countryID neighborData =
  let '(st', errors, added) :=
    addNeighbors_loop (fetchAllCountryIds st) countryID neighborData st [] [] in
  if (length added =? 0)%nat then
    (st', {| statusCode := Some 400;
             body := NoneAdded "Failed to add neighbors" [] errors |})
  else
    (st', {| statusCode := Some 200;
             body := SomeAdded "Neighbors added successfully" added errors |}).
Proof.
  intros [item H]. unfold addNeighbors, fetchCountryById. by rewrite H.
Qed.

(** C10. When the source country exists, the two lists of the response
    partition the batch: the number of added identifiers plus the number of
    errors is the number of proposed neighbors. *)
Theorem addNeighbors_partition st countryID neighborData :
  is_Some (CountryTable st !! countryID) ->
  let response := (addNeighbors st countryID neighborData).2 in
  (length (reported_neighbors (body response))
   + length (reported_errors (body response)))%nat
  = length neighborData.
Proof.
  intros Hc. rewrite (addNeighbors_resolved _ _ _ Hc).
  destruct (addNeighbors_loop _ _ _ _ _ _) as [[st' e] a] eqn:Hloop.
  apply addNeighbors_loop_length in Hloop. simpl in Hloop.
  destruct a as [|n a]; simpl in *; lia.
Qed.

Lemma addNeighbors_partition_witness :
  is_Some (CountryTable two_countries !! "A") /\
  (length (reported_neighbors (body (addNeighbors two_countries "A" ["B"; "Z"; "B"]).2))
   + length (reported_errors (body (addNeighbors two_countries "A" ["B"; "Z"; "B"]).2)))%nat
  = 3%nat.
Proof.
  assert (H : is_Some (CountryTable two_countries !! "A")) by (by exists Alpha).
  split; [exact H|].
  exact (addNeighbors_partition two_countries "A" ["B"; "Z"; "B"] H).
Defined.

(** C3. When the source country exists, the response is fixed by the list of
    additions the loop made, which are the relations written: none added
    gives 400 with an empty [neighbors] and the errors; some added gives 200
    with the added identifiers and the errors.  One valid and one invalid
    proposal, in either order, give one addition, one error and 200. *)
Theorem addNeighbors_status st countryID neighborData :
  is_Some (CountryTable st !! countryID) ->
  let st' := (addNeighbors st countryID neighborData).1 in
  let response := (addNeighbors st countryID neighborData).2 in
  (exists added errors,
      addNeighbors_loop (fetchAllCountryIds st) countryID neighborData st [] []
      = (st', errors, added) /\
      NeighborsTable st' = list_to_set (pair countryID <$> added) ∪ NeighborsTable st /\
      (added = [] ->
       response = {| statusCode := Some 400;
                     body := NoneAdded "Failed to add neighbors" [] errors |}) /\
      (added <> [] ->
       response = {| statusCode := Some 200;
                     body := SomeAdded "Neighbors added successfully" added errors |}))
  /\
  (forall valid invalid,
      is_Some (CountryTable st !! valid) ->
      (countryID, valid) ∉ NeighborsTable st ->
      CountryTable st !! invalid = None ->
      neighborData = [valid; invalid] \/ neighborData = [invalid; valid] ->
      statusCode response = Some 200 /\
      reported_neighbors (body response) = [valid] /\
      length (reported_errors (body response)) = 1%nat).
Proof.
  intros Hc st' response. subst st' response. split.
  - rewrite (addNeighbors_resolved _ _ _ Hc).
    destruct (addNeighbors_loop _ _ _ _ _ _) as [[st' e] a] eqn:Hloop.
    exists a, e.
    apply addNeighbors_loop_store in Hloop as (_ & new & -> & Hn & _).
    destruct new as [|n new]; simpl; (split; [done|]); (split; [done|]);
      split; intros H; done.
  - intros valid invalid Hv Hrel Hi Hdata.
    assert (Hvin : bool_decide (valid ∈ fetchAllCountryIds st) = true)
      by (by apply bool_decide_eq_true, elem_of_fetchAllCountryIds).
    assert (Hiin : bool_decide (invalid ∈ fetchAllCountryIds st) = false).
    { apply bool_decide_eq_false. rewrite elem_of_fetchAllCountryIds, Hi.
      by intros [? ?]. }
    assert (Hfresh : fetchNeighbor st countryID valid = false)
      by (by apply bool_decide_eq_false).
    rewrite (addNeighbors_resolved _ _ _ Hc).
    destruct Hdata as [-> | ->]; simpl; rewrite Hvin, Hiin; simpl;
      rewrite Hfresh; simpl; rewrite ?Hiin; simpl; done.
Qed.

Lemma addNeighbors_status_witness :
  statusCode (addNeighbors two_countries "A" ["B"; "Z"]).2 = Some 200 /\
  reported_neighbors (body (addNeighbors two_countries "A" ["B"; "Z"]).2) = ["B"] /\
  length (reported_errors (body (addNeighbors two_countries "A" ["B"; "Z"]).2)) = 1%nat.
Proof.
  assert (Ha : is_Some (CountryTable two_countries !! "A")) by (by exists Alpha).
  assert (Hb : is_Some (CountryTable two_countries !! "B")) by (by exists Beta).
  refine (proj2 (addNeighbors_status two_countries "A" ["B"; "Z"] Ha) "B" "Z" Hb _ _ _).
  - apply not_elem_of_empty.
  - reflexivity.
  - left. reflexivity.
Defined.

(** Every element of the batch is accounted for in the result of the loop,
    whatever came before it. *)
Lemma addNeighbors_loop_accounted ids countryID neighborData st st' e a n :
  addNeighbors_loop ids countryID neighborData st [] [] = (st', e, a) ->
  n ∈ neighborData ->
  (n ∉ ids -> invalid_neighbor_error n ∈ e) /\
  (n ∈ ids ->
   (n ∈ a \/ existing_neighbor_error n ∈ e) /\ (countryID, n) ∈ NeighborsTable st').
Proof.
  revert st st' e a.
  induction neighborData as [|m rest IH]; intros st st' e a Hloop Hn.
  { by apply elem_of_nil in Hn. }
  simpl in Hloop.
  destruct (negb _) eqn:Hin; [|destruct (fetchNeighbor _ _ _) eqn:Hrel];
    rewrite addNeighbors_loop_acc in Hloop;
    destruct (addNeighbors_loop ids countryID rest _ [] []) as [[st1 e1] a1] eqn:Hrest;
    injection Hloop as <- <- <-;
    pose proof (addNeighbors_loop_store _ _ _ _ _ _ _ _ _ Hrest)
      as (_ & new & Hnew & Hstore & _); simpl in Hnew; subst new;
    apply elem_of_cons in Hn as [-> | Hn].
  - apply negb_true_iff, bool_decide_eq_false in Hin. split; [|done].
    intros _. apply elem_of_cons. by left.
  - destruct (IH _ _ _ _ Hrest Hn) as [H1 H2]. split.
    + intros H. apply elem_of_cons. right. by apply H1.
    + intros H. destruct (H2 H) as [[?|?] ?]; (split; [|done]); [by left|].
      right. apply elem_of_cons. by right.
  - apply negb_false_iff, bool_decide_eq_true in Hin.
    apply bool_decide_eq_true in Hrel. split; [done|]. intros _. split.
    + right. apply elem_of_cons. by left.
    + rewrite Hstore. apply elem_of_union. by right.
  - destruct (IH _ _ _ _ Hrest Hn) as [H1 H2]. split.
    + intros H. apply elem_of_cons. right. by apply H1.
    + intros H. destruct (H2 H) as [[?|?] ?]; (split; [|done]); [by left|].
      right. apply elem_of_cons. by right.
  - apply negb_false_iff, bool_decide_eq_true in Hin. split; [done|].
    intros _. split.
    + left. apply elem_of_cons. by left.
    + rewrite Hstore. apply elem_of_union. right. simpl.
      apply elem_of_union. left. by apply elem_of_singleton.
  - destruct (IH _ _ _ _ Hrest Hn) as [H1 H2]. split.
    + intros H. by apply H1.
    + intros H. destruct (H2 H) as [[?|?] ?]; (split; [|done]); [|by right].
      left. apply elem_of_cons. by right.
Qed.

(** A single proposal, in each of the three cases of the loop body. *)
Lemma addNeighbors_invalid st countryID n :
  is_Some (CountryTable st !! countryID) ->
  CountryTable st !! n = None ->
  addNeighbors st countryID [n] =
  (st, {| statusCode := Some 400;
          body := NoneAdded "Failed to add neighbors" []
                    [invalid_neighbor_error n] |}).
Proof.
  intros Hc Hn. rewrite (addNeighbors_resolved _ _ _ Hc). simpl.
  rewrite bool_decide_eq_false_2; [done|].
  rewrite elem_of_fetchAllCountryIds, Hn. by intros [? ?].
Qed.

Lemma addNeighbors_existing st countryID n :
  is_Some (CountryTable st !! countryID) ->
  is_Some (CountryTable st !! n) ->
  (countryID, n) ∈ NeighborsTable st ->
  addNeighbors st countryID [n] =
  (st, {| statusCode := Some 400;
          body := NoneAdded "Failed to add neighbors" []
                    [existing_neighbor_error n] |}).
Proof.
  intros Hc Hn Hrel. rewrite (addNeighbors_resolved _ _ _ Hc). simpl.
  rewrite bool_decide_eq_true_2 by (by apply elem_of_fetchAllCountryIds).
  simpl. unfold fetchNeighbor. by rewrite bool_decide_eq_true_2.
Qed.

Lemma addNeighbors_fresh st countryID n :
  is_Some (CountryTable st !! countryID) ->
  is_Some (CountryTable st !! n) ->
  (countryID, n) ∉ NeighborsTable st ->
  addNeighbors st countryID [n] =
  (addNeighbor st countryID n,
   {| statusCode := Some 200;
      body := SomeAdded "Neighbors added successfully" [n] [] |}).
Proof.
  intros Hc Hn Hrel. rewrite (addNeighbors_resolved _ _ _ Hc). simpl.
  rewrite bool_decide_eq_true_2 by (by apply elem_of_fetchAllCountryIds).
  simpl. unfold fetchNeighbor. by rewrite bool_decide_eq_false_2.
Qed.

(** C6, the claim as worded, fails: the strings the handler pushes are not the
    strings of the specification, for an unknown identifier and for an existing
    relation alike. *)
Lemma addNeighbors_error_strings_differ :
  reported_errors (body (addNeighbors two_countries "A" ["Z"]).2)
  = ["Invalid neighbor country ID: Z"] /\
  reported_errors (body (addNeighbors two_countries "A" ["Z"]).2)
  <> [spec_invalid_neighbor_error "Z"] /\
  reported_errors (body (addNeighbors A_to_B "A" ["B"]).2)
  = ["Neighbor with ID B already exists for this country"] /\
  reported_errors (body (addNeighbors A_to_B "A" ["B"]).2)
  <> [spec_existing_neighbor_error "B"].
Proof. vm_compute. repeat split; intros H; discriminate H. Qed.

(** C6, amended to the strings of the code.  When the source country exists:
    an identifier that is no country gives exactly the error
    "Invalid neighbor country ID: <id>" and no write; an existing relation
    gives exactly "Neighbor with ID <id> already exists for this country" and
    no write; every element of a batch is accounted for, whatever was rejected
    before it; and adding the same pair a second time reports it in the errors,
    adds nothing and leaves the store as it was. *)
Theorem addNeighbors_per_element st countryID :
  is_Some (CountryTable st !! countryID) ->
  (forall n, CountryTable st !! n = None ->
     addNeighbors st countryID [n] =
     (st, {| statusCode := Some 400;
             body := NoneAdded "Failed to add neighbors" []
                       ["Invalid neighbor country ID: " +:+ n] |}))
  /\
  (forall n, is_Some (CountryTable st !! n) ->
     (countryID, n) ∈ NeighborsTable st ->
     addNeighbors st countryID [n] =
     (st, {| statusCode := Some 400;
             body := NoneAdded "Failed to add neighbors" []
                       ["Neighbor with ID " +:+ n
                        +:+ " already exists for this country"] |}))
  /\
  (forall neighborData n, n ∈ neighborData ->
     let response := (addNeighbors st countryID neighborData).2 in
     (CountryTable st !! n = None ->
      invalid_neighbor_error n ∈ reported_errors (body response)) /\
     (is_Some (CountryTable st !! n) ->
      n ∈ reported_neighbors (body response)
      \/ existing_neighbor_error n ∈ reported_errors (body response)))
  /\
  (forall n,
     let first := addNeighbors st countryID [n] in
     let second := addNeighbors first.1 countryID [n] in
     second.1 = first.1 /\
     reported_neighbors (body second.2) = [] /\
     reported_errors (body second.2) =
       [if bool_decide (is_Some (CountryTable st !! n))
        then existing_neighbor_error n
        else invalid_neighbor_error n]).
Proof.
  intros Hc. split; [|split; [|split]].
  - intros n Hn. by apply addNeighbors_invalid.
  - intros n Hn Hrel. by apply addNeighbors_existing.
  - intros neighborData n Hn response. subst response.
    rewrite (addNeighbors_resolved _ _ _ Hc).
    destruct (addNeighbors_loop _ _ _ _ _ _) as [[st' e] a] eqn:Hloop.
    destruct (addNeighbors_loop_accounted _ _ _ _ _ _ _ _ Hloop Hn) as [H1 H2].
    rewrite elem_of_fetchAllCountryIds in H1, H2.
    destruct a as [|m a]; simpl; split.
    + intros H. apply H1. rewrite H. by intros [? ?].
    + intros H. destruct (H2 H) as [[Ha|?] _]; [|by right].
      by apply elem_of_nil in Ha.
    + intros H. apply H1. rewrite H. by intros [? ?].
    + intros H. by destruct (H2 H) as [? _].
  - intros n first second. subst first second.
    case_bool_decide as Hn.
    + destruct (decide ((countryID, n) ∈ NeighborsTable st)) as [Hrel|Hrel].
      * rewrite (addNeighbors_existing _ _ _ Hc Hn Hrel). simpl.
        by rewrite (addNeighbors_existing _ _ _ Hc Hn Hrel).
      * rewrite (addNeighbors_fresh _ _ _ Hc Hn Hrel). simpl.
        rewrite addNeighbors_existing; [done|done|done|].
        simpl. apply elem_of_union. left. by apply elem_of_singleton.
    + assert (Hnone : CountryTable st !! n = None).
      { destruct (CountryTable st !! n) eqn:E; [|done]. destruct Hn. by eexists. }
      rewrite (addNeighbors_invalid _ _ _ Hc Hnone). simpl.
      by rewrite (addNeighbors_invalid _ _ _ Hc Hnone).
Qed.

Lemma addNeighbors_per_element_witness :
  let first := addNeighbors two_countries "A" ["B"] in
  let second := addNeighbors first.1 "A" ["B"] in
  second.1 = first.1 /\
  reported_neighbors (body second.2) = [] /\
  reported_errors (body second.2) =
    ["Neighbor with ID B already exists for this country"].
Proof.
  assert (Ha : is_Some (CountryTable two_countries !! "A")) by (by exists Alpha).
  exact (proj2 (proj2 (proj2 (addNeighbors_per_element two_countries "A" Ha))) "B").
Defined.

(** ** Referential integrity of [NeighborsTable] *)

Lemma put_country_keeps tbl item k :
  is_Some (tbl !! k) -> is_Some (put_country tbl item !! k).
Proof.
  intros Hk. unfold put_country. destruct (countryID item) as [id|]; [|done].
  destruct (decide (id = k)) as [->|Hne].
  - rewrite lookup_insert_eq. by eexists.
  - by rewrite lookup_insert_ne.
Qed.

Lemma batchWrite_keeps st items k :
  is_Some (CountryTable st !! k) ->
  is_Some (CountryTable (batchWrite st items) !! k).
Proof.
  unfold batchWrite. simpl. generalize (CountryTable st) as tbl.
  induction items as [|item items IH]; intros tbl Hk; simpl; [done|].
  apply IH. by apply put_country_keeps.
Qed.

(** [addCountry] never touches the relations and never removes a key. *)
Lemma addCountry_store v4 st event_body :
  NeighborsTable (addCountry v4 st event_body).1 = NeighborsTable st /\
  forall k, is_Some (CountryTable st !! k) ->
            is_Some (CountryTable (addCountry v4 st event_body).1 !! k).
Proof.
  unfold addCountry.
  destruct (addCountry_try v4 st event_body) as [[st' countries]|e] eqn:Htry;
    simpl; [|done].
  unfold addCountry_try in Htry.
  destruct event_body as [| | |requestBody]; simpl in Htry; try done.
  destruct (all_map _ requestBody) as [isValid|]; simpl in Htry; [|done].
  destruct (negb _); [done|]. injection Htry as <- _.
  split; [done|]. intros k. apply batchWrite_keeps.
Qed.

(** What one call of [addNeighbors] writes: the country table is the same
    before and after, and both ends of every new relation are keys of it. *)
Lemma addNeighbors_writes st countryID neighborData :
  CountryTable (addNeighbors st countryID neighborData).1 = CountryTable st /\
  forall c n,
    (c, n) ∈ NeighborsTable (addNeighbors st countryID neighborData).1 ->
    (c, n) ∉ NeighborsTable st ->
    c = countryID /\ n ∈ neighborData /\
    is_Some (CountryTable st !! c) /\ is_Some (CountryTable st !! n).
Proof.
  unfold addNeighbors, fetchCountryById.
  destruct (CountryTable st !! countryID) as [item|] eqn:Hc; simpl; [|done].
  destruct (addNeighbors_loop _ _ _ _ _ _) as [[st' e] a] eqn:Hloop.
  apply addNeighbors_loop_store in Hloop as (Htbl & new & -> & Hn & Hnew).
  assert (Hgoal : CountryTable st' = CountryTable st /\
    forall c n, (c, n) ∈ NeighborsTable st' -> (c, n) ∉ NeighborsTable st ->
      c = countryID /\ n ∈ neighborData /\
      is_Some (CountryTable st !! c) /\ is_Some (CountryTable st !! n)).
  { split; [done|]. intros c n Hin Hold. rewrite Hn in Hin.
    apply elem_of_union in Hin as [Hin|Hin]; [|done].
    apply elem_of_list_to_set, list_elem_of_fmap in Hin as (m & [= -> ->] & Hm).
    destruct (Hnew _ Hm) as [Hids Hdata].
    apply elem_of_fetchAllCountryIds in Hids. rewrite Hc. eauto. }
  by destruct (length _ =? 0)%nat.
Qed.

(** C7. Every relation a call of [addNeighbors] writes has the source country
    and the neighbor among the countries stored at that time, and so, in every
    store the handlers can reach, both ends of every relation are stored
    countries. *)
Theorem neighbor_referential_integrity st :
  reachable st ->
  referential_integrity st /\
  forall countryID neighborData c n,
    (c, n) ∈ NeighborsTable (addNeighbors st countryID neighborData).1 ->
    (c, n) ∉ NeighborsTable st ->
    c = countryID /\ n ∈ neighborData /\
    is_Some (CountryTable st !! c) /\ is_Some (CountryTable st !! n).
Proof.
  intros Hreach. split; [|intros countryID neighborData; apply addNeighbors_writes].
  induction Hreach as [|st st' Hreach IH Hstep].
  - intros c n H. by apply not_elem_of_empty in H.
  - destruct Hstep as [v4 st event_body|st countryID neighborData].
    + destruct (addCountry_store v4 st event_body) as [Hrel Hkeys].
      intros c n H. rewrite Hrel in H. destruct (IH _ _ H). split; by apply Hkeys.
    + destruct (addNeighbors_writes st countryID neighborData) as [Htbl Hnew].
      intros c n H. rewrite Htbl.
      destruct (decide ((c, n) ∈ NeighborsTable st)) as [Hold|Hold].
      * by apply IH.
      * by destruct (Hnew _ _ H Hold) as (_ & _ & ? & ?).
Qed.

Lemma neighbor_referential_integrity_witness :
  reachable built_store /\ referential_integrity built_store.
Proof.
  assert (H : reachable built_store).
  { unfold built_store. eapply reachable_step; [|apply step_addNeighbors].
    eapply reachable_step; [apply reachable_empty|apply step_addCountry]. }
  split; [exact H|].
  exact (proj1 (neighbor_referential_integrity built_store H)).
Defined.

Example built_store_relation : ("id-0", "id-1") ∈ NeighborsTable built_store.
Proof. vm_compute. reflexivity. Qed.

(** ** [getCountryNeighbors] *)

Lemma elem_of_fetchNeighborsByCountryId st countryID neighborId :
  neighborId ∈ fetchNeighborsByCountryId st countryID
  <-> (countryID, neighborId) ∈ NeighborsTable st.
Proof.
  unfold fetchNeighborsByCountryId.
  rewrite merge_sort_Permutation, list_elem_of_fmap. split.
  - intros ([c n] & -> & H). apply list_elem_of_filter in H as [Hc H].
    simpl in Hc. subst c. by apply elem_of_elements in H.
  - intros H. exists (countryID, neighborId). split; [done|].
    apply list_elem_of_filter. split; [done|]. by apply elem_of_elements.
Qed.

(** [Promise.all] rejects as soon as one element does; when every rejection
    carries the same exception, that exception is the outcome. *)
Lemma all_map_throw {A B : Type} (f : A -> Result B) (xs : list A) (e : Exn) (x : A) :
  (forall y e', f y = Throw e' -> e' = e) ->
  x ∈ xs -> f x = Throw e ->
  all_map f xs = Throw e.
Proof.
  intros Hsame Hx Hfx. induction xs as [|y xs IH]; [by apply elem_of_nil in Hx|].
  simpl. destruct (f y) as [b|e'] eqn:Hfy; simpl.
  - apply elem_of_cons in Hx as [->|Hx]; [congruence|]. by rewrite (IH Hx).
  - by rewrite (Hsame _ _ Hfy).
Qed.

(** C8, the claim as worded, fails: with a relation that points at a missing
    country the answer has status 404, not a status of the 500 class, and it is
    the very answer given when the primary country is absent. *)
Lemma dangling_neighbor_answers_404 :
  CountryTable dangling_relation !! "A" = Some Alpha /\
  ("A", "Z") ∈ NeighborsTable dangling_relation /\
  CountryTable dangling_relation !! "Z" = None /\
  CountryTable dangling_relation !! "Q" = None /\
  statusCode (getCountryNeighbors dangling_relation "A") = Some 404 /\
  getCountryNeighbors dangling_relation "A" = getCountryNeighbors dangling_relation "Q".
Proof.
  split; [reflexivity|]. split; [simpl; by apply elem_of_singleton|].
  repeat split.
Qed.

(** C8, amended.  When a stored relation of an existing country references a
    country that does not resolve, the failure is not dropped and is not a
    status of the 500 class: the handler answers with the status and the body
    of the [HttpError] that [fetchCountryById] throws, 404 and "not found",
    under the message "Some Error". *)
Theorem getCountryNeighbors_dangling st countryID neighborId :
  is_Some (CountryTable st !! countryID) ->
  (countryID, neighborId) ∈ NeighborsTable st ->
  CountryTable st !! neighborId = None ->
  getCountryNeighbors st countryID =
  {| statusCode := Some 404;
     body := NeighborsError "Some Error" (HttpError 404 "not found") |}.
Proof.
  intros [item Hc] Hrel Hn.
  unfold getCountryNeighbors, getCountryNeighbors_try, fetchCountryById at 1.
  rewrite Hc. simpl.
  apply elem_of_fetchNeighborsByCountryId in Hrel.
  destruct (fetchNeighborsByCountryId st countryID) as [|m ms] eqn:Hq;
    [by apply elem_of_nil in Hrel|].
  change (length (m :: ms) =? 0)%nat with false. cbv iota.
  rewrite (all_map_throw _ _ (HttpError 404 "not found") neighborId);
    [reflexivity| |exact Hrel|].
  - intros y e'. unfold fetchCountryById.
    destruct (CountryTable st !! y); simpl; [done|]. by intros [= <-].
  - unfold fetchCountryById. by rewrite Hn.
Qed.

Lemma getCountryNeighbors_dangling_witness :
  getCountryNeighbors dangling_relation "A" =
  {| statusCode := Some 404;
     body := NeighborsError "Some Error" (HttpError 404 "not found") |}.
Proof.
  apply (getCountryNeighbors_dangling dangling_relation "A" "Z").
  - by exists Alpha.
  - simpl. by apply elem_of_singleton.
  - reflexivity.
Defined.

(** ** [addCountry] *)

Lemma required_false v : required v = false <-> missing v.
Proof.
  unfold required, missing. destruct v as [s|]; [|by split; [left|]].
  destruct (String.eqb_spec s "") as [->|Hne]; simpl.
  - split; [by right|done].
  - split; [done|]. intros [H|[= H]]; done.
Qed.

Lemma countrySchema_validate_false c :
  countrySchema_validate c = false <-> missing_required_field c.
Proof.
  unfold countrySchema_validate, missing_required_field.
  rewrite !andb_false_iff, !required_false. tauto.
Qed.

Lemma countrySchema_validate_true c :
  countrySchema_validate c = true <-> ~ missing_required_field c.
Proof.
  rewrite <- countrySchema_validate_false.
  destruct (countrySchema_validate c); split; congruence.
Qed.

(** The validation pass: all records pass, or the whole batch is rejected. *)
Lemma validation_all_or_nothing (requestBody : list Country) :
  all_map (fun country =>
             if countrySchema_validate country then Ok true
             else Throw (Error "Validation error for country"))
          requestBody
  = if forallb countrySchema_validate requestBody
    then Ok (map (fun _ => true) requestBody)
    else Throw (Error "Validation error for country").
Proof.
  induction requestBody as [|c cs IH]; simpl; [done|].
  destruct (countrySchema_validate c); simpl; [|done].
  rewrite IH. by destruct (forallb _ cs).
Qed.

Lemma forallb_all_true {A : Type} (l : list A) :
  forallb (fun valid : bool => valid) (map (fun _ => true) l) = true.
Proof. induction l; simpl; auto. Qed.

Lemma addCountry_try_array v4 st requestBody :
  addCountry_try v4 st (BodyArray requestBody) =
  if forallb countrySchema_validate requestBody then
    let countries := imap (fun i country => with_countryID country (v4 i)) requestBody in
    Ok (batchWrite st countries, countries)
  else Throw (Error "Validation error for country").
Proof.
  unfold addCountry_try. simpl. rewrite validation_all_or_nothing.
  destruct (forallb _ requestBody); simpl; [|done].
  by rewrite forallb_all_true.
Qed.

(** A key no put request names keeps its item. *)
Lemma foldl_put_country_other (items : list Country) tbl k :
  (forall item, item ∈ items -> countryID item <> Some k) ->
  foldl put_country tbl items !! k = tbl !! k.
Proof.
  revert tbl. induction items as [|x xs IH]; intros tbl Hk; simpl; [done|].
  rewrite IH by (intros item H; apply Hk, elem_of_cons; by right).
  unfold put_country. destruct (countryID x) as [id|] eqn:Hid; [|done].
  apply lookup_insert_ne. intros ->. apply (Hk x); [|done].
  apply elem_of_cons. by left.
Qed.

(** The last put request on a key decides its item. *)
Lemma foldl_put_country_last (items : list Country) tbl k i item :
  items !! i = Some item ->
  countryID item = Some k ->
  (forall j item', (i < j)%nat -> items !! j = Some item' -> countryID item' <> Some k) ->
  foldl put_country tbl items !! k = Some item.
Proof.
  revert tbl i. induction items as [|x xs IH]; intros tbl i Hi Hid Hlater; [done|].
  simpl. destruct i as [|i]; simpl in Hi.
  - injection Hi as ->. rewrite foldl_put_country_other.
    + unfold put_country. rewrite Hid. apply lookup_insert_eq.
    + intros item' [j Hj]%list_elem_of_lookup. apply (Hlater (S j)); [lia|done].
  - apply (IH _ i); [done|done|].
    intros j item' Hlt Hj. apply (Hlater (S j)); [lia|done].
Qed.

Lemma forallb_validate_false requestBody :
  Exists missing_required_field requestBody ->
  forallb countrySchema_validate requestBody = false.
Proof.
  induction 1 as [c cs Hc|c cs _ IH]; simpl.
  - apply countrySchema_validate_false in Hc. by rewrite Hc.
  - rewrite IH. apply andb_false_r.
Qed.

Lemma forallb_validate_true requestBody :
  Forall (fun c => ~ missing_required_field c) requestBody ->
  forallb countrySchema_validate requestBody = true.
Proof.
  induction 1 as [|c cs Hc _ IH]; simpl; [done|].
  apply countrySchema_validate_true in Hc. by rewrite Hc, IH.
Qed.

(** C9. Batch creation validates all or nothing and assigns the identifiers
    itself.  If some record is missing a required field the answer is 500 and
    the store is the one before the call.  Otherwise the answer is 201 with
    the records, each carrying the identifier [v4()] gave it in place of any
    it came with, and the store is the old one after one [batchWrite] of these
    records: the relations are untouched, a key that was not generated keeps
    its item, and a record whose identifier was generated once is stored under
    it. *)
Theorem addCountry_all_or_nothing v4 st requestBody :
  let result := addCountry v4 st (BodyArray requestBody) in
  let countries := imap (fun i country => with_countryID country (v4 i)) requestBody in
  (Exists missing_required_field requestBody ->
   result = (st, {| statusCode := Some 500;
                    body := AddCountryError "Internal Server Error"
                              (Error "Validation error for country") |}))
  /\
  (Forall (fun c => ~ missing_required_field c) requestBody ->
   result.2 = {| statusCode := Some 201; body := CreatedCountries countries |} /\
   result.1 = batchWrite st countries /\
   NeighborsTable result.1 = NeighborsTable st /\
   (forall i c, requestBody !! i = Some c ->
      countries !! i = Some (with_countryID c (v4 i)) /\
      countryID (with_countryID c (v4 i)) = Some (v4 i) /\
      ((forall j, (j < length requestBody)%nat -> v4 j = v4 i -> j = i) ->
       CountryTable result.1 !! v4 i = Some (with_countryID c (v4 i)))) /\
   (forall k, (forall i, (i < length requestBody)%nat -> v4 i <> k) ->
      CountryTable result.1 !! k = CountryTable st !! k)).
Proof.
  intros result countries. subst result. unfold addCountry.
  rewrite addCountry_try_array. fold countries. split.
  - intros Hex. by rewrite (forallb_validate_false _ Hex).
  - intros Hall. rewrite (forallb_validate_true _ Hall). simpl.
    assert (Hlookup : forall j, countries !! j
              = (fun c => with_countryID c (v4 j)) <$> requestBody !! j).
    { intros j. unfold countries. apply list_lookup_imap. }
    split; [done|]. split; [done|]. split; [done|]. split.
    + intros i c Hi. split; [by rewrite Hlookup, Hi|]. split; [done|].
      intros Hfresh. apply (foldl_put_country_last _ _ _ i).
      * by rewrite Hlookup, Hi.
      * done.
      * intros j item' Hlt Hj. rewrite Hlookup in Hj.
        destruct (requestBody !! j) as [c'|] eqn:Hc'; [|done].
        injection Hj as <-. simpl. intros [= Heq].
        apply lookup_lt_Some in Hc'. specialize (Hfresh j Hc' Heq). lia.
    + intros k Hk. apply foldl_put_country_other.
      intros item [j Hj]%list_elem_of_lookup. rewrite Hlookup in Hj.
      destruct (requestBody !! j) as [c'|] eqn:Hc'; [|done].
      injection Hj as <-. simpl. intros [= Heq].
      apply lookup_lt_Some in Hc'. by apply (Hk j).
Qed.

Lemma addCountry_all_or_nothing_witness :
  (addCountry example_v4 two_countries (BodyArray nameless_batch)).1 = two_countries /\
  (addCountry example_v4 empty_store (BodyArray example_batch)).2
  = {| statusCode := Some 201;
       body := CreatedCountries
                 [example_country "id-0" "Alpha" "Asia" None;
                  example_country "id-1" "Beta" "Europe" None] |}.
Proof.
  split.
  - refine (f_equal fst
              (proj1 (addCountry_all_or_nothing example_v4 two_countries nameless_batch) _)).
    apply Exists_cons_tl, Exists_cons_hd. left. by left.
  - refine (proj1 (proj2 (addCountry_all_or_nothing example_v4 empty_store example_batch) _)).
    repeat constructor; apply countrySchema_validate_true; reflexivity.
Defined.

(** ** The sort comparator *)

(** C2, the claim as worded, fails: a record without the sort field does not
    compare below a record that has it; the comparator answers 0, and the sort
    leaves the record where it was, after the record it should precede. *)
Lemma comparator_missing_not_less :
  field_missing SortName Nameless = true /\
  field_missing SortName Alpha = false /\
  comparator SortName 1 Nameless Alpha = 0 /\
  ~ comparator SortName 1 Nameless Alpha < 0 /\
  Array_sort (comparator SortName 1) [Alpha; Nameless] = [Alpha; Nameless].
Proof. vm_compute. repeat split; intros H; discriminate H. Qed.

Lemma field_lt_missing sortKey a b :
  field_missing sortKey a = true \/ field_missing sortKey b = true ->
  field_lt sortKey a b = false.
Proof.
  unfold field_missing, field_lt, lt_undefined.
  destruct sortKey;
    [destruct (name a), (name b)
    |destruct (population a), (population b)
    |destruct (area a), (area b)];
    intros [H|H]; solve [done | discriminate H].
Qed.

(** C2, amended.  When either record is missing the sort field the comparator
    answers 0 in both argument orders and for either direction: the record
    ranks equal to every other record, not below it. *)
Theorem comparator_missing_equal sortKey sortDirection a b :
  field_missing sortKey a = true \/ field_missing sortKey b = true ->
  comparator sortKey sortDirection a b = 0 /\
  comparator sortKey sortDirection b a = 0.
Proof.
  intros H. unfold comparator.
  rewrite (field_lt_missing sortKey a b H).
  rewrite (field_lt_missing sortKey b a) by tauto.
  done.
Qed.

Lemma comparator_missing_equal_witness :
  comparator SortName (-1) Nameless Beta = 0 /\
  comparator SortName (-1) Beta Nameless = 0.
Proof.
  apply (comparator_missing_equal SortName (-1) Nameless Beta).
  left. reflexivity.
Defined.

(** With a missing field in play the comparator is not a consistent order:
    [Alpha] ranks equal to [Nameless] and [Nameless] to [Beta], while [Alpha]
    ranks below [Beta]. *)
Example comparator_inconsistent :
  comparator SortName 1 Alpha Nameless = 0 /\
  comparator SortName 1 Nameless Beta = 0 /\
  comparator SortName 1 Alpha Beta = -1.
Proof. repeat split. Qed.

(** The scenario of the specification: two countries ordered by population. *)
Example sort_population_low_to_high :
  Array_sort (comparator SortPopulation 1) [Beta; Alpha] = [Alpha; Beta].
Proof. reflexivity. Qed.

Example sort_population_high_to_low :
  Array_sort (comparator SortPopulation (-1)) [Alpha; Beta] = [Beta; Alpha].
Proof. reflexivity. Qed.

(** ** Pagination *)

Lemma sort_insert_length {A : Type} (cmp : A -> A -> Z) x (l : list A) :
  length (sort_insert cmp x l) = S (length l).
Proof.
  induction l as [|y l IH]; simpl; [done|].
  destruct (0 <? cmp x y); simpl; [by rewrite IH|done].
Qed.

Lemma Array_sort_length {A : Type} (cmp : A -> A -> Z) (l : list A) :
  length (Array_sort cmp l) = length l.
Proof.
  induction l as [|x l IH]; simpl; [done|]. by rewrite sort_insert_length, IH.
Qed.

Lemma ceiling_bounds t l : 0 < l -> (ceiling t l - 1) * l < t <= ceiling t l * l.
Proof.
  intros Hl. unfold ceiling.
  pose proof (Z.div_mod (t + l - 1) l) as Hdm.
  pose proof (Z.mod_pos_bound (t + l - 1) l Hl) as Hb.
  nia.
Qed.

Lemma ceil_div_positive t l :
  0 <= t -> 0 < l -> Js.ceil_div (Js.Int t) (Js.Int l) = Js.Int (ceiling t l).
Proof.
  intros Ht Hl. unfold Js.ceil_div. simpl.
  assert (Hq : - (- t / l) = ceiling t l).
  { unfold ceiling. apply Z.div_unique with (r := (t + l - 1) - l * - (- t / l)).
    - left.
      pose proof (Z.div_mod (- t) l) as Hdm.
      pose proof (Z.mod_pos_bound (- t) l Hl) as Hb. nia.
    - lia. }
  rewrite Hq.
  destruct (Z.eqb_spec l 0) as [->|_]; [lia|].
  destruct (Z.eqb_spec (ceiling t l) 0) as [->|_]; [|done].
  destruct (Z.ltb_spec t 0), (Z.ltb_spec l 0); simpl; solve [done | lia].
Qed.

Lemma slice_of_window {A : Type} (arr : list A) s l :
  0 <= s -> 0 < l ->
  Js.slice arr (Js.Int s) (Js.Int (s + l))
  = take (Z.to_nat l) (drop (Z.to_nat s) arr).
Proof.
  intros Hs Hl. unfold Js.slice. simpl.
  destruct (Z.ltb_spec s 0); [lia|]. destruct (Z.ltb_spec (s + l) 0); [lia|].
  destruct (Z_lt_le_dec s (Z.of_nat (length arr))) as [Hlt|Hge].
  - rewrite (Z.min_l s) by lia.
    destruct (Z_le_gt_dec (s + l) (Z.of_nat (length arr))).
    + rewrite Z.min_l by lia. f_equal. lia.
    + rewrite Z.min_r by lia.
      rewrite !take_ge; [done| |]; rewrite length_drop; lia.
  - rewrite !Z.min_r by lia. rewrite Z.sub_diag. simpl.
    rewrite (drop_ge arr (Z.to_nat s)) by lia. by rewrite take_nil.
Qed.

(** C4. For a page [p] and a limit [l] that parse to positive integers, and
    a search the listing accepts, the answer is 200 with: [total] the number
    of records after filtering; [pages] the ceiling of [total / l]; the list
    the window of at most [l] sorted records from index [(p - 1) * l], empty
    once [p] exceeds [pages]; [has_next] the truth of [p < pages]; [has_prev]
    the truth of [p > 1]. *)
Theorem listing_pagination RegExp_source st q p l operand :
  Js.parseInt (default "1" (page q)) = Js.Int p -> 0 < p ->
  Js.parseInt (default "10" (limit q)) = Js.Int l -> 0 < l ->
  search_operand RegExp_source (search q) = Ok operand ->
  let criteria := sort_criteria (default "a_to_z" (sort_by q)) in
  let filtered := scan st operand in
  let sorted := Array_sort (comparator criteria.1 criteria.2) filtered in
  let total := Z.of_nat (length filtered) in
  let pages := ceiling total l in
  let window := take (Z.to_nat l) (drop (Z.to_nat ((p - 1) * l)) sorted) in
  getAllCountriesPaginated RegExp_source st q =
  {| statusCode := Some 200;
     body := Listing.CountryList "Country list"
               {| Listing.list := window;
                  Listing.has_next := p <? pages;
                  Listing.has_prev := 1 <? p;
                  Listing.page := Js.Int p;
                  Listing.pages := Js.Int pages;
                  Listing.per_page := Js.Int l;
                  Listing.total := Js.Int total |} |}
  /\ (pages - 1) * l < total <= pages * l
  /\ (Z.of_nat (length window) <= l)
  /\ (Z.of_nat (length window) <= total)
  /\ (pages < p -> window = [])
  /\ (p <= pages -> window <> []).
Proof.
  intros Hp Hppos Hl Hlpos Hsearch criteria filtered sorted total pages window.
  assert (Hlen : length sorted = length filtered) by apply Array_sort_length.
  pose proof (ceiling_bounds total l Hlpos) as Hceil. fold pages in Hceil.
  split; [|split; [exact Hceil|]].
  - unfold getAllCountriesPaginated. rewrite Hp, Hl, Hsearch.
    fold criteria. destruct criteria as [sortKey sortDirection] eqn:Hcrit.
    simpl in sorted. fold filtered. fold sorted.
    rewrite Hlen. fold total.
    rewrite ceil_div_positive by lia. fold pages.
    assert (Hskip : Js.mul (Js.sub (Js.Int p) (Js.Int 1)) (Js.Int l)
                    = Js.Int ((p - 1) * l)).
    { unfold Js.sub, Js.mul. simpl.
      destruct (Z.eqb_spec ((p - 1) * l) 0) as [->|_]; [|done].
      destruct (Z.ltb_spec (p - 1) 0), (Z.ltb_spec l 0); simpl; solve [done|lia]. }
    rewrite Hskip.
    assert (Hend : Js.add (Js.Int ((p - 1) * l)) (Js.Int l)
                   = Js.Int ((p - 1) * l + l)) by done.
    rewrite Hend, slice_of_window by nia.
    done.
  - assert (Hw : length window
                 = Nat.min (Z.to_nat l) (length sorted - Z.to_nat ((p - 1) * l))).
    { unfold window. by rewrite length_take, length_drop. }
    repeat split.
    + lia.
    + unfold total. lia.
    + intros Hgt. apply length_zero_iff_nil. rewrite Hw, Hlen. unfold total in Hceil. nia.
    + intros Hle Hnil. apply length_zero_iff_nil in Hnil. rewrite Hw, Hlen in Hnil.
      unfold total in Hceil. nia.
Qed.

Lemma listing_pagination_witness :
  getAllCountriesPaginated words_RegExp_source two_countries second_page =
  {| statusCode := Some 200;
     body := Listing.CountryList "Country list"
               {| Listing.list := [Alpha];
                  Listing.has_next := false;
                  Listing.has_prev := true;
                  Listing.page := Js.Int 2;
                  Listing.pages := Js.Int 2;
                  Listing.per_page := Js.Int 1;
                  Listing.total := Js.Int 2 |} |}.
Proof.
  refine (eq_trans
            (proj1 (listing_pagination words_RegExp_source two_countries second_page
                      2 1 None _ _ _ _ _)) _).
  - reflexivity.
  - lia.
  - reflexivity.
  - lia.
  - reflexivity.
  - vm_compute. reflexivity.
Defined.

(** ** Page and limit that do not parse *)

(** C5, the claim as worded, fails: a page that is not a number is not
    replaced by the default.  With no parameter the answer lists the two
    countries on page 1; with [page=abc] the list is empty and the page of the
    answer is [NaN]. *)
Lemma listing_invalid_page_not_defaulted :
  Js.parseInt "abc" = Js.NaN /\
  getAllCountriesPaginated words_RegExp_source two_countries no_parameters =
  {| statusCode := Some 200;
     body := Listing.CountryList "Country list"
               {| Listing.list := [Alpha; Beta];
                  Listing.has_next := false;
                  Listing.has_prev := false;
                  Listing.page := Js.Int 1;
                  Listing.pages := Js.Int 1;
                  Listing.per_page := Js.Int 10;
                  Listing.total := Js.Int 2 |} |} /\
  getAllCountriesPaginated words_RegExp_source two_countries page_abc =
  {| statusCode := Some 200;
     body := Listing.CountryList "Country list"
               {| Listing.list := [];
                  Listing.has_next := false;
                  Listing.has_prev := false;
                  Listing.page := Js.NaN;
                  Listing.pages := Js.Int 1;
                  Listing.per_page := Js.Int 10;
                  Listing.total := Js.Int 2 |} |} /\
  getAllCountriesPaginated words_RegExp_source two_countries page_abc
  <> getAllCountriesPaginated words_RegExp_source two_countries no_parameters.
Proof.
  split; [reflexivity|]. split; [vm_compute; reflexivity|].
  split; [vm_compute; reflexivity|]. vm_compute. intros H. discriminate H.
Qed.

Lemma mul_NaN_r x : Js.mul x Js.NaN = Js.NaN.
Proof. by destruct x. Qed.

Lemma mul_NaN_l x : Js.mul Js.NaN x = Js.NaN.
Proof. by destruct x. Qed.

Lemma slice_NaN_start {A : Type} (arr : list A) x :
  Js.slice arr Js.NaN (Js.add Js.NaN x) = [].
Proof.
  replace (Js.add Js.NaN x) with Js.NaN by (by destruct x).
  unfold Js.slice. simpl. rewrite Z.min_l by lia. done.
Qed.

(** C5, amended.  Whatever the page and the limit are, a listing whose search
    is accepted answers 200, and no value is replaced by a default: [page] and
    [per_page] of the answer are what [parseInt] returned, [NaN] included.
    When the page or the limit does not parse to a number the list is empty
    and [has_next] is false, and a limit that does not parse makes [pages]
    [NaN] too.  The defaults 1 and 10 stand in for an absent parameter only. *)
Theorem listing_unparsed RegExp_source st q operand :
  search_operand RegExp_source (search q) = Ok operand ->
  exists data,
    getAllCountriesPaginated RegExp_source st q =
    {| statusCode := Some 200;
       body := Listing.CountryList "Country list" data |} /\
    Listing.page data = Js.parseInt (default "1" (page q)) /\
    Listing.per_page data = Js.parseInt (default "10" (limit q)) /\
    Listing.total data = Js.Int (Z.of_nat (length (scan st operand))) /\
    (Js.parseInt (default "1" (page q)) = Js.NaN
     \/ Js.parseInt (default "10" (limit q)) = Js.NaN ->
     Listing.list data = [] /\ Listing.has_next data = false) /\
    (Js.parseInt (default "10" (limit q)) = Js.NaN -> Listing.pages data = Js.NaN).
Proof.
  intros Hsearch. unfold getAllCountriesPaginated. rewrite Hsearch.
  destruct (sort_criteria _) as [sortKey sortDirection].
  eexists. split; [reflexivity|]. simpl. rewrite Array_sort_length.
  split; [done|]. split; [done|]. split; [done|]. split.
  - intros Hnan. split.
    + destruct Hnan as [-> | ->].
      * change (Js.sub Js.NaN (Js.Int 1)) with Js.NaN.
        rewrite mul_NaN_l. apply slice_NaN_start.
      * rewrite mul_NaN_r. apply slice_NaN_start.
    + destruct Hnan as [-> | ->]; [done|].
      by destruct (Js.parseInt (default "1" (page q))).
  - by intros ->.
Qed.

Lemma listing_unparsed_witness :
  exists data,
    getAllCountriesPaginated words_RegExp_source two_countries page_abc =
    {| statusCode := Some 200;
       body := Listing.CountryList "Country list" data |} /\
    Listing.page data = Js.NaN /\
    Listing.list data = [] /\
    Listing.has_next data = false.
Proof.
  destruct (listing_unparsed words_RegExp_source two_countries page_abc None eq_refl)
    as (data & H1 & H2 & _ & _ & H3 & _).
  exists data. split; [exact H1|]. split; [exact H2|].
  apply H3. left. reflexivity.
Defined.

(** ** Search *)

(** What the search of the code retains: the items in which the [source] of
    the regular expression occurs with its letter case. *)
Lemma listing_search_filter RegExp_source st q s source :
  search q = Some s -> s <> "" -> RegExp_source s = Some source ->
  exists data,
    getAllCountriesPaginated RegExp_source st q =
    {| statusCode := Some 200;
       body := Listing.CountryList "Country list" data |} /\
    Listing.total data
    = Js.Int (Z.of_nat (length (filter (fun item => Is_true (FilterExpression source item))
                                       (map_to_list (CountryTable st)).*2))).
Proof.
  intros Hs Hne Hsrc. unfold getAllCountriesPaginated, search_operand.
  rewrite Hs. destruct (String.eqb_spec s "") as [->|_]; [done|]. rewrite Hsrc.
  destruct (sort_criteria _) as [sortKey sortDirection].
  eexists. split; [reflexivity|]. simpl. by rewrite Array_sort_length.
Qed.

(** A search the constructor rejects ends in the [catch] block. *)
Lemma listing_search_syntax_error RegExp_source st q s :
  search q = Some s -> s <> "" -> RegExp_source s = None ->
  getAllCountriesPaginated RegExp_source st q =
  {| statusCode := Some 500; body := Listing.Failure "Internal Server Error" |}.
Proof.
  intros Hs Hne Hsrc. unfold getAllCountriesPaginated, search_operand.
  rewrite Hs. destruct (String.eqb_spec s "") as [->|_]; [done|]. rewrite Hsrc.
  by destruct (sort_criteria _).
Qed.

Example search_open_paren_is_500 :
  statusCode (getAllCountriesPaginated words_RegExp_source two_countries search_open_paren)
  = Some 500.
Proof. reflexivity. Qed.

(** C1 at the input [search=alpha] over a store that holds "Alpha": the record
    matches in the sense of the specification, and the listing of the code,
    whose filter compares the [source] of the regular expression with its
    letter case, returns no item. *)
Theorem search_misses_other_case RegExp_source :
  RegExp_source "alpha" = Some "alpha" ->
  spec_matches "alpha" Alpha = true /\
  FilterExpression "alpha" Alpha = false /\
  getAllCountriesPaginated RegExp_source two_countries search_alpha =
  {| statusCode := Some 200;
     body := Listing.CountryList "Country list"
               {| Listing.list := [];
                  Listing.has_next := false;
                  Listing.has_prev := false;
                  Listing.page := Js.Int 1;
                  Listing.pages := Js.Int 0;
                  Listing.per_page := Js.Int 10;
                  Listing.total := Js.Int 0 |} |}.
Proof.
  intros Hsrc. split; [reflexivity|]. split; [reflexivity|].
  unfold getAllCountriesPaginated, search_operand. simpl. rewrite Hsrc.
  vm_compute. reflexivity.
Qed.

Lemma search_misses_other_case_witness :
  words_RegExp_source "alpha" = Some "alpha" /\
  Listing.CountryList "Country list"
    {| Listing.list := [];
       Listing.has_next := false;
       Listing.has_prev := false;
       Listing.page := Js.Int 1;
       Listing.pages := Js.Int 0;
       Listing.per_page := Js.Int 10;
       Listing.total := Js.Int 0 |}
  = body (getAllCountriesPaginated words_RegExp_source two_countries search_alpha).
Proof.
  split; [reflexivity|].
  exact (eq_sym (f_equal body
           (proj2 (proj2 (search_misses_other_case words_RegExp_source eq_refl))))).
Defined.

(** * Further properties of the handlers *)

(** ** Stored countries *)

Lemma foldl_put_country_lookup (items : list Country) tbl k item :
  foldl put_country tbl items !! k = Some item ->
  tbl !! k = Some item \/ (item ∈ items /\ countryID item = Some k).
Proof.
  revert tbl. induction items as [|x xs IH]; intros tbl H; simpl in H; [by left|].
  apply IH in H as [H|[Hin Hid]].
  - unfold put_country in H. destruct (countryID x) as [id|] eqn:Hx; [|by left].
    destruct (decide (id = k)) as [->|Hne].
    + rewrite lookup_insert_eq in H. injection H as <-. right.
      split; [apply elem_of_cons; by left|done].
    + rewrite lookup_insert_ne in H by done. by left.
  - right. split; [apply elem_of_cons; by right|done].
Qed.

Lemma addCountry_well_formed v4 st event_body :
  countries_well_formed st ->
  countries_well_formed (addCountry v4 st event_body).1.
Proof.
  intros Hwf. unfold addCountry.
  destruct event_body as [| | |requestBody]; try exact Hwf.
  rewrite addCountry_try_array.
  destruct (forallb countrySchema_validate requestBody) eqn:Hall; [|exact Hwf].
  simpl. intros k item Hk. apply foldl_put_country_lookup in Hk as [Hk|[Hin Hid]].
  - by apply Hwf.
  - split; [|done]. apply list_elem_of_lookup in Hin as [i Hi].
    rewrite list_lookup_imap in Hi.
    destruct (requestBody !! i) as [c|] eqn:Hc; [|done]. injection Hi as <-.
    rewrite forallb_forall in Hall. apply (Hall c).
    apply list_elem_of_In, list_elem_of_lookup. by exists i.
Qed.

(** What holds of every store the handlers can reach. *)
Lemma reachable_invariant st :
  reachable st -> countries_well_formed st /\ referential_integrity st.
Proof.
  induction 1 as [|st st' Hreach [Hwf Hri] Hstep].
  - split; [intros k item H; simpl in H; by rewrite lookup_empty in H|].
    intros c n H. by apply not_elem_of_empty in H.
  - destruct Hstep as [v4 st event_body|st countryID neighborData].
    + split; [by apply addCountry_well_formed|].
      destruct (addCountry_store v4 st event_body) as [Hrel Hkeys].
      intros c n H. rewrite Hrel in H. destruct (Hri _ _ H). split; by apply Hkeys.
    + destruct (addNeighbors_writes st countryID neighborData) as [Htbl Hnew].
      split; [intros k item; rewrite Htbl; apply Hwf|].
      intros c n H. rewrite Htbl.
      destruct (decide ((c, n) ∈ NeighborsTable st)) as [Hold|Hold].
      * by apply Hri.
      * by destruct (Hnew _ _ H Hold) as (_ & _ & ? & ?).
Qed.

(** X1. In every store the handlers can reach, each stored country has its
    four required fields present and not empty, is stored under its own
    [countryID], and is what [getCountryByID] answers, with status 200, for
    that identifier. *)
Theorem stored_countries_well_formed st k item :
  reachable st ->
  CountryTable st !! k = Some item ->
  ~ missing_required_field item /\
  countryID item = Some k /\
  getCountryByID st k = Ok {| statusCode := Some 200; body := CountryItem item |}.
Proof.
  intros Hreach Hk. destruct (reachable_invariant st Hreach) as [Hwf _].
  destruct (Hwf k item Hk) as [Hvalid Hid].
  split; [by apply countrySchema_validate_true|]. split; [done|].
  unfold getCountryByID, fetchCountryById. by rewrite Hk.
Qed.

Lemma reachable_built_store : reachable built_store.
Proof.
  unfold built_store. eapply reachable_step; [|apply step_addNeighbors].
  eapply reachable_step; [apply reachable_empty|apply step_addCountry].
Defined.

Lemma stored_countries_well_formed_witness :
  ~ missing_required_field (example_country "id-0" "Alpha" "Asia" None) /\
  countryID (example_country "id-0" "Alpha" "Asia" None) = Some "id-0" /\
  getCountryByID built_store "id-0"
  = Ok {| statusCode := Some 200;
          body := CountryItem (example_country "id-0" "Alpha" "Asia" None) |}.
Proof.
  apply (stored_countries_well_formed built_store "id-0"
           (example_country "id-0" "Alpha" "Asia" None) reachable_built_store).
  vm_compute. reflexivity.
Defined.

(** ** [getCountryByID] *)

(** X2. [getCountryByID] never throws: it answers 200 with the item when the
    identifier is a key of [CountryTable], and otherwise 404 with the error
    "not found" that [handleError] copies from the [HttpError]. *)
Theorem getCountryByID_answers st id :
  exists response,
    getCountryByID st id = Ok response /\
    (forall item, CountryTable st !! id = Some item <->
       response = {| statusCode := Some 200; body := CountryItem item |}) /\
    (CountryTable st !! id = None <->
       response = {| statusCode := Some 404;
                     body := Handled (HttpErrorBody "not found") |}).
Proof.
  unfold getCountryByID, fetchCountryById.
  destruct (CountryTable st !! id) as [item|] eqn:Hid; simpl;
    eexists; (split; [reflexivity|]); split.
  - intros item'. split; [by intros [= ->]|by intros [= ->]].
  - split; [done|]. intros [= H].
  - intros item'. split; [done|]. intros [= H].
  - done.
Qed.

(** X3. A batch that [addCountry] accepts can be read back: when the
    identifiers generated for the batch are pairwise distinct, [getCountryByID]
    answers 200 for each of them with the record of the batch, carrying that
    identifier; an identifier that was neither stored before nor generated
    is answered with 404. *)
Theorem addCountry_then_getCountryByID v4 st requestBody :
  Forall (fun c => ~ missing_required_field c) requestBody ->
  (forall i j, (i < length requestBody)%nat -> (j < length requestBody)%nat ->
     v4 i = v4 j -> i = j) ->
  let st' := (addCountry v4 st (BodyArray requestBody)).1 in
  (forall i c, requestBody !! i = Some c ->
     getCountryByID st' (v4 i)
     = Ok {| statusCode := Some 200;
             body := CountryItem (with_countryID c (v4 i)) |}) /\
  (forall k, CountryTable st !! k = None ->
     (forall i, (i < length requestBody)%nat -> v4 i <> k) ->
     getCountryByID st' k
     = Ok {| statusCode := Some 404;
             body := Handled (HttpErrorBody "not found") |}).
Proof.
  intros Hall Hfresh st'. subst st'. unfold addCountry.
  rewrite addCountry_try_array, (forallb_validate_true _ Hall). simpl.
  set (countries := imap (fun i country => with_countryID country (v4 i)) requestBody).
  assert (Hlookup : forall j, countries !! j
            = (fun c => with_countryID c (v4 j)) <$> requestBody !! j).
  { intros j. unfold countries. apply list_lookup_imap. }
  split.
  - intros i c Hi. unfold getCountryByID, fetchCountryById, batchWrite. simpl.
    rewrite (foldl_put_country_last countries _ (v4 i) i (with_countryID c (v4 i))).
    + done.
    + by rewrite Hlookup, Hi.
    + done.
    + intros j item' Hlt Hj. rewrite Hlookup in Hj.
      destruct (requestBody !! j) as [c'|] eqn:Hc'; [|done].
      injection Hj as <-. simpl. intros [= Heq].
      apply lookup_lt_Some in Hc', Hi. specialize (Hfresh j i Hc' Hi Heq). lia.
  - intros k Hk Hgen. unfold getCountryByID, fetchCountryById, batchWrite. simpl.
    rewrite foldl_put_country_other, Hk; [done|].
    intros item [j Hj]%list_elem_of_lookup. rewrite Hlookup in Hj.
    destruct (requestBody !! j) as [c'|] eqn:Hc'; [|done].
    injection Hj as <-. simpl. intros [= Heq].
    apply lookup_lt_Some in Hc'. by apply (Hgen j).
Qed.

Lemma example_batch_valid : Forall (fun c => ~ missing_required_field c) example_batch.
Proof. repeat constructor; apply countrySchema_validate_true; reflexivity. Defined.

Lemma example_v4_distinct i j :
  (i < length example_batch)%nat -> (j < length example_batch)%nat ->
  example_v4 i = example_v4 j -> i = j.
Proof.
  simpl. intros Hi Hj.
  destruct i as [|[|i]], j as [|[|j]]; simpl; try done; lia.
Defined.

Lemma addCountry_then_getCountryByID_witness :
  getCountryByID (addCountry example_v4 empty_store (BodyArray example_batch)).1 "id-1"
  = Ok {| statusCode := Some 200;
          body := CountryItem (example_country "id-1" "Beta" "Europe" None) |}.
Proof.
  exact (proj1 (addCountry_then_getCountryByID example_v4 empty_store example_batch
                  example_batch_valid example_v4_distinct)
           1%nat (example_country "ignored" "Beta" "Europe" None) eq_refl).
Defined.

(** ** [addCountry] *)

(** X4. [addCountry] answers 201 or 500 and nothing else.  The answer is
    500 for a missing body, a body that is not JSON, a body that is not an
    array and a batch with a record that is missing a required field, and an
    answer of 500 leaves the store as it was; an answer of 201 means that the
    body was an array of records none of which is missing a required field,
    and it returns as many records as it was given. *)
Theorem addCountry_status v4 st event_body :
  let st' := (addCountry v4 st event_body).1 in
  let response := (addCountry v4 st event_body).2 in
  (statusCode response = Some 201 \/ statusCode response = Some 500) /\
  (statusCode response = Some 500 -> st' = st) /\
  (event_body = BodyMissing \/ event_body = BodyMalformed \/ event_body = BodyNotArray
   \/ (exists requestBody, event_body = BodyArray requestBody /\
                           Exists missing_required_field requestBody) ->
   statusCode response = Some 500) /\
  (statusCode response = Some 201 ->
   exists requestBody countries,
     event_body = BodyArray requestBody /\
     Forall (fun c => ~ missing_required_field c) requestBody /\
     body response = CreatedCountries countries /\
     length countries = length requestBody).
Proof.
  intros st' response. subst st' response. unfold addCountry.
  destruct event_body as [| | |requestBody]; simpl;
    try (split; [by right|]; split; [done|]; split; [done|done]).
  rewrite addCountry_try_array.
  destruct (forallb countrySchema_validate requestBody) eqn:Hall; simpl.
  - split; [by left|]. split; [done|]. split.
    + intros [H|[H|[H|(cs & [= <-] & Hex)]]]; try done.
      by rewrite (forallb_validate_false _ Hex) in Hall.
    + intros _. eexists requestBody, _. split; [done|]. split; [|split; [done|]].
      * apply Forall_forall. intros c Hc.
        apply countrySchema_validate_true. rewrite forallb_forall in Hall.
        apply Hall. by apply list_elem_of_In.
      * apply length_imap.
  - split; [by right|]. split; [done|]. split; [done|done].
Qed.

Lemma addCountry_status_witness :
  statusCode (addCountry example_v4 two_countries BodyNotArray).2 = Some 500 /\
  statusCode (addCountry example_v4 two_countries (BodyArray nameless_batch)).2
  = Some 500.
Proof.
  split.
  - apply (proj1 (proj2 (proj2 (addCountry_status example_v4 two_countries BodyNotArray)))).
    right. right. left. reflexivity.
  - apply (proj1 (proj2 (proj2 (addCountry_status example_v4 two_countries
                                  (BodyArray nameless_batch))))).
    right. right. right. exists nameless_batch. split; [reflexivity|].
    apply Exists_cons_tl, Exists_cons_hd. left. by left.
Defined.

(** X5. [addCountry] deletes nothing: every key of [CountryTable] is still a
    key after the call, and [NeighborsTable] is the same, so that a store in
    which every relation joins two stored countries stays so. *)
Theorem addCountry_deletes_nothing v4 st event_body :
  let st' := (addCountry v4 st event_body).1 in
  NeighborsTable st' = NeighborsTable st /\
  (forall k, is_Some (CountryTable st !! k) -> is_Some (CountryTable st' !! k)) /\
  (referential_integrity st -> referential_integrity st').
Proof.
  intros st'. subst st'.
  destruct (addCountry_store v4 st event_body) as [Hrel Hkeys].
  split; [done|]. split; [done|].
  intros Hri c n H. rewrite Hrel in H. destruct (Hri _ _ H). split; by apply Hkeys.
Qed.

(** ** [addNeighbors] *)

(** X6. When the source country does not resolve, [addNeighbors] touches
    nothing and reports nothing of the batch: the answer is 404 with the
    "not found" error, whatever the proposed neighbors are. *)
Theorem addNeighbors_absent_country st countryID neighborData :
  CountryTable st !! countryID = None ->
  addNeighbors st countryID neighborData =
  (st, {| statusCode := Some 404;
          body := AddNeighborsError "Internal Server Error"
                    (HttpError 404 "not found") |}).
Proof.
  intros Hc. unfold addNeighbors, fetchCountryById. by rewrite Hc.
Qed.

Lemma addNeighbors_absent_country_witness :
  addNeighbors two_countries "Q" ["A"; "B"] =
  (two_countries,
   {| statusCode := Some 404;
      body := AddNeighborsError "Internal Server Error"
                (HttpError 404 "not found") |}).
Proof.
  exact (addNeighbors_absent_country two_countries "Q" ["A"; "B"] eq_refl).
Defined.

(** X7. The effect of [addNeighbors] on the store, when the source country
    exists: [CountryTable] is unchanged, and the relations afterwards are the
    relations before together with one relation from the source country to
    each proposed identifier that is a stored country.  No relation is
    removed and none is written in the other direction. *)
Theorem addNeighbors_store_effect st countryID neighborData :
  is_Some (CountryTable st !! countryID) ->
  let st' := (addNeighbors st countryID neighborData).1 in
  CountryTable st' = CountryTable st /\
  forall c n,
    (c, n) ∈ NeighborsTable st' <->
    (c, n) ∈ NeighborsTable st \/
    (c = countryID /\ n ∈ neighborData /\ is_Some (CountryTable st !! n)).
Proof.
  intros Hc st'. subst st'.
  destruct (addNeighbors_writes st countryID neighborData) as [Htbl Hnew].
  split; [done|]. intros c n. split.
  - intros H. destruct (decide ((c, n) ∈ NeighborsTable st)) as [Hold|Hold];
      [by left|]. right. by destruct (Hnew _ _ H Hold) as (? & ? & _ & ?).
  - rewrite (addNeighbors_resolved _ _ _ Hc).
    destruct (addNeighbors_loop _ _ _ _ _ _) as [[st1 e] a] eqn:Hloop.
    assert (Hst1 : forall x, x ∈ NeighborsTable st1 ->
      x ∈ NeighborsTable (if (length a =? 0)%nat
        then (st1, {| statusCode := Some 400;
                      body := NoneAdded "Failed to add neighbors" [] e |})
        else (st1, {| statusCode := Some 200;
                      body := SomeAdded "Neighbors added successfully" a e |})).1)
      by (by destruct (length a =? 0)%nat).
    intros [Hold|(-> & Hin & Hn)]; apply Hst1.
    + pose proof (addNeighbors_loop_store _ _ _ _ _ _ _ _ _ Hloop)
        as (_ & new & _ & -> & _).
      apply elem_of_union. by right.
    + apply (addNeighbors_loop_accounted _ _ _ _ _ _ _ _ Hloop Hin).
      by apply elem_of_fetchAllCountryIds.
Qed.

Lemma addNeighbors_store_effect_witness :
  ("A", "B") ∈ NeighborsTable (addNeighbors two_countries "A" ["B"; "Z"]).1 /\
  ~ ("B", "A") ∈ NeighborsTable (addNeighbors two_countries "A" ["B"; "Z"]).1.
Proof.
  assert (Ha : is_Some (CountryTable two_countries !! "A")) by (by exists Alpha).
  destruct (addNeighbors_store_effect two_countries "A" ["B"; "Z"] Ha) as [_ H].
  split.
  - apply H. right. split; [reflexivity|]. split; [|by exists Beta].
    apply elem_of_cons. by left.
  - intros Hrev. apply H in Hrev as [Hold|(Heq & _)].
    + by apply not_elem_of_empty in Hold.
    + discriminate Heq.
Defined.

(** The error the loop pushes for a proposal it rejects. *)
Lemma addNeighbors_loop_all_rejected ids countryID neighborData st errors added :
  (forall n, n ∈ neighborData -> n ∈ ids -> (countryID, n) ∈ NeighborsTable st) ->
  addNeighbors_loop ids countryID neighborData st errors added =
  (st,
   errors ++ map (fun n => if bool_decide (n ∈ ids)
                           then existing_neighbor_error n
                           else invalid_neighbor_error n) neighborData,
   added).
Proof.
  revert errors. induction neighborData as [|n rest IH]; intros errors Hrel; simpl.
  - by rewrite app_nil_r.
  - assert (Hrest : forall m, m ∈ rest -> m ∈ ids -> (countryID, m) ∈ NeighborsTable st)
      by (intros m Hm; apply Hrel, elem_of_cons; by right).
    case_bool_decide as Hn; simpl.
    + unfold fetchNeighbor. rewrite bool_decide_eq_true_2.
      * rewrite IH by done. by rewrite <- app_assoc.
      * apply Hrel; [apply elem_of_cons; by left|done].
    + rewrite IH by done. by rewrite <- app_assoc.
Qed.

(** X8. Sending the same batch a second time adds nothing: when the source
    country exists, the second call leaves the store as the first call left
    it and answers 400 with one error for each proposed identifier, the
    "already exists" error for those that are stored countries and the
    "invalid" error for the others. *)
Theorem addNeighbors_twice st countryID neighborData :
  is_Some (CountryTable st !! countryID) ->
  let first := addNeighbors st countryID neighborData in
  let second := addNeighbors first.1 countryID neighborData in
  second.1 = first.1 /\
  second.2 =
  {| statusCode := Some 400;
     body := NoneAdded "Failed to add neighbors" []
               (map (fun n => if bool_decide (is_Some (CountryTable st !! n))
                              then existing_neighbor_error n
                              else invalid_neighbor_error n) neighborData) |}.
Proof.
  intros Hc first second. subst first second.
  destruct (addNeighbors_writes st countryID neighborData) as [Htbl _].
  assert (Hids : fetchAllCountryIds (addNeighbors st countryID neighborData).1
                 = fetchAllCountryIds st)
    by (unfold fetchAllCountryIds; by rewrite Htbl).
  assert (Hrel : forall n, n ∈ neighborData -> n ∈ fetchAllCountryIds st ->
            (countryID, n) ∈ NeighborsTable (addNeighbors st countryID neighborData).1).
  { intros n Hn Hid. rewrite (addNeighbors_resolved _ _ _ Hc).
    destruct (addNeighbors_loop _ _ _ _ _ _) as [[st1 e] a] eqn:Hloop.
    destruct (addNeighbors_loop_accounted _ _ _ _ _ _ _ _ Hloop Hn) as [_ H].
    destruct (H Hid) as [_ Hin]. by destruct (length a =? 0)%nat. }
  rewrite (addNeighbors_resolved (addNeighbors st countryID neighborData).1)
    by (by rewrite Htbl).
  rewrite Hids, addNeighbors_loop_all_rejected by done. simpl.
  split; [done|]. do 2 f_equal. apply map_ext_in. intros n _.
  by rewrite (bool_decide_ext _ _ (elem_of_fetchAllCountryIds st n)).
Qed.

Lemma addNeighbors_twice_witness :
  (addNeighbors (addNeighbors two_countries "A" ["B"; "Z"]).1 "A" ["B"; "Z"]).2 =
  {| statusCode := Some 400;
     body := NoneAdded "Failed to add neighbors" []
               ["Neighbor with ID B already exists for this country";
                "Invalid neighbor country ID: Z"] |}.
Proof.
  assert (Ha : is_Some (CountryTable two_countries !! "A")) by (by exists Alpha).
  exact (proj2 (addNeighbors_twice two_countries "A" ["B"; "Z"] Ha)).
Defined.

Lemma addNeighbors_loop_added_fresh ids countryID neighborData st errors added st' e a :
  addNeighbors_loop ids countryID neighborData st errors added = (st', e, a) ->
  exists new, a = added ++ new /\ NoDup new /\
    forall n, n ∈ new -> (countryID, n) ∉ NeighborsTable st.
Proof.
  revert st errors added.
  induction neighborData as [|n rest IH]; intros st errors added; simpl.
  - intros [= <- <- <-]. exists []. rewrite app_nil_r.
    split; [done|]. split; [constructor|]. intros n Hn. by apply elem_of_nil in Hn.
  - destruct (negb _); [|destruct (fetchNeighbor _ _ _) eqn:Hrel]; intros H;
      apply IH in H as (new & -> & Hdup & Hnew); [by exists new|by exists new|].
    exists (n :: new). rewrite <- app_assoc. split; [done|].
    apply bool_decide_eq_false in Hrel.
    assert (Hlater : forall m, m ∈ new -> m <> n /\ (countryID, m) ∉ NeighborsTable st).
    { intros m Hm. specialize (Hnew m Hm). simpl in Hnew.
      rewrite elem_of_union, elem_of_singleton in Hnew.
      split; [intros ->; apply Hnew; by left|intros ?; apply Hnew; by right]. }
    split.
    + constructor; [|done]. intros Hn. by destruct (Hlater n Hn).
    + intros m [->|Hm]%elem_of_cons; [done|]. by destruct (Hlater m Hm).
Qed.

(** X9. When the source country exists, the list of added identifiers that
    [addNeighbors] reports holds no identifier twice, and each of them is a
    proposed identifier that is a stored country and had no relation from
    the source country before the call. *)
Theorem addNeighbors_added_fresh st countryID neighborData :
  is_Some (CountryTable st !! countryID) ->
  let added := reported_neighbors (body (addNeighbors st countryID neighborData).2) in
  NoDup added /\
  forall n, n ∈ added ->
    n ∈ neighborData /\ is_Some (CountryTable st !! n) /\
    (countryID, n) ∉ NeighborsTable st.
Proof.
  intros Hc added. subst added. rewrite (addNeighbors_resolved _ _ _ Hc).
  destruct (addNeighbors_loop _ _ _ _ _ _) as [[st1 e] a] eqn:Hloop.
  destruct (addNeighbors_loop_added_fresh _ _ _ _ _ _ _ _ _ Hloop)
    as (new & Ha & Hdup & Hfresh). simpl in Ha. subst new.
  destruct (addNeighbors_loop_store _ _ _ _ _ _ _ _ _ Hloop)
    as (_ & new & Ha & _ & Hnew). simpl in Ha. subst new.
  destruct a as [|m a]; simpl.
  - split; [constructor|]. intros n Hn. by apply elem_of_nil in Hn.
  - split; [done|]. intros n Hn. destruct (Hnew n Hn) as [Hid Hin].
    split; [done|]. split; [by apply elem_of_fetchAllCountryIds|by apply Hfresh].
Qed.

Lemma addNeighbors_added_fresh_witness :
  NoDup (reported_neighbors (body (addNeighbors two_countries "A" ["B"; "B"; "A"]).2)).
Proof.
  assert (Ha : is_Some (CountryTable two_countries !! "A")) by (by exists Alpha).
  exact (proj1 (addNeighbors_added_fresh two_countries "A" ["B"; "B"; "A"] Ha)).
Defined.

(** X10. Nothing in [addNeighbors] sets the source country apart from the
    other countries: proposing a stored country as its own neighbor, when it
    is not one yet, writes the relation of the country to itself and answers
    200. *)
Theorem addNeighbors_self_relation st countryID :
  is_Some (CountryTable st !! countryID) ->
  (countryID, countryID) ∉ NeighborsTable st ->
  addNeighbors st countryID [countryID] =
  (addNeighbor st countryID countryID,
   {| statusCode := Some 200;
      body := SomeAdded "Neighbors added successfully" [countryID] [] |}) /\
  (countryID, countryID) ∈ NeighborsTable (addNeighbors st countryID [countryID]).1.
Proof.
  intros Hc Hrel. rewrite (addNeighbors_fresh _ _ _ Hc Hc Hrel).
  split; [done|]. simpl. apply elem_of_union. left. by apply elem_of_singleton.
Qed.

Lemma addNeighbors_self_relation_witness :
  ("A", "A") ∈ NeighborsTable (addNeighbors two_countries "A" ["A"]).1.
Proof.
  refine (proj2 (addNeighbors_self_relation two_countries "A" _ _)).
  - by exists Alpha.
  - apply not_elem_of_empty.
Defined.

(** ** [getCountryNeighbors] *)

Lemma fetchNeighborsByCountryId_nil st countryID :
  (forall n, (countryID, n) ∉ NeighborsTable st) ->
  fetchNeighborsByCountryId st countryID = [].
Proof.
  intros Hnone. destruct (fetchNeighborsByCountryId st countryID) as [|n ns] eqn:Hq;
    [done|].
  destruct (Hnone n). apply elem_of_fetchNeighborsByCountryId. rewrite Hq.
  apply elem_of_cons. by left.
Qed.

(** The fetches of the neighbors, when each of them resolves. *)
Lemma all_map_fetch st (ns : list string) :
  (forall n, n ∈ ns -> is_Some (CountryTable st !! n)) ->
  exists items,
    Forall2 (fun n item => CountryTable st !! n = Some item) ns items /\
    all_map (fun neighborId =>
               let* neighbor := fetchCountryById st neighborId in
               Ok (neighbor_view neighbor)) ns
    = Ok (neighbor_view <$> items).
Proof.
  induction ns as [|n ns IH]; intros Hall.
  - exists []. split; [constructor|done].
  - destruct (Hall n) as [item Hn]; [apply elem_of_cons; by left|].
    destruct IH as (items & Hitems & Hmap);
      [intros m Hm; apply Hall, elem_of_cons; by right|].
    exists (item :: items). split; [by constructor|].
    simpl. unfold fetchCountryById at 1. rewrite Hn. simpl. by rewrite Hmap.
Qed.

(** The answer of [getCountryNeighbors] when the country and all its
    neighbors resolve. *)
Lemma getCountryNeighbors_views st countryID :
  is_Some (CountryTable st !! countryID) ->
  (forall n, (countryID, n) ∈ NeighborsTable st -> is_Some (CountryTable st !! n)) ->
  exists message items,
    Forall2 (fun n item => CountryTable st !! n = Some item)
            (fetchNeighborsByCountryId st countryID) items /\
    getCountryNeighbors st countryID =
    {| statusCode := Some 200;
       body := NeighborCountries message (neighbor_view <$> items) |}.
Proof.
  intros [item Hc] Hres.
  destruct (all_map_fetch st (fetchNeighborsByCountryId st countryID))
    as (items & Hitems & Hmap).
  { intros n Hn. by apply Hres, elem_of_fetchNeighborsByCountryId. }
  unfold getCountryNeighbors, getCountryNeighbors_try, fetchCountryById at 1.
  rewrite Hc. simpl.
  destruct (fetchNeighborsByCountryId st countryID) as [|m ms] eqn:Hq.
  - apply Forall2_nil_inv_l in Hitems as ->.
    exists "Country neighbours", []. split; [constructor|done].
  - change (length (m :: ms) =? 0)%nat with false. cbv iota. rewrite Hmap.
    exists "Neighbour countries list", items. split; [done|done].
Qed.

(** X11. [getCountryNeighbors] answers 200 or 404 and nothing else, and 404
    exactly when the country is not stored or one of its relations points at
    an identifier that is not stored. *)
Theorem getCountryNeighbors_status st countryID :
  let response := getCountryNeighbors st countryID in
  (statusCode response = Some 200 \/ statusCode response = Some 404) /\
  (statusCode response = Some 404 <->
   CountryTable st !! countryID = None \/
   exists n, (countryID, n) ∈ NeighborsTable st /\ CountryTable st !! n = None).
Proof.
  intros response. subst response.
  destruct (CountryTable st !! countryID) as [item|] eqn:Hc.
  - destruct (decide (Forall (fun n => is_Some (CountryTable st !! n))
                        (fetchNeighborsByCountryId st countryID))) as [Hall|Hsome].
    + destruct (getCountryNeighbors_views st countryID) as (msg & items & _ & ->).
      { by exists item. }
      { intros n Hn. rewrite Forall_forall in Hall.
        by apply Hall, elem_of_fetchNeighborsByCountryId. }
      simpl. split; [by left|]. split; [done|].
      intros [Hnone|(n & Hn & Hlookup)]; [done|].
      rewrite Forall_forall in Hall.
      apply elem_of_fetchNeighborsByCountryId, Hall in Hn.
      rewrite Hlookup in Hn. by destruct Hn.
    + apply not_Forall_Exists, Exists_exists in Hsome as (n & Hn & Hlookup); [|apply _].
      apply elem_of_fetchNeighborsByCountryId in Hn.
      assert (Hnone : CountryTable st !! n = None).
      { destruct (CountryTable st !! n) eqn:E; [|done]. destruct Hlookup. by eexists. }
      assert (Hresp : getCountryNeighbors st countryID =
        {| statusCode := Some 404;
           body := NeighborsError "Some Error" (HttpError 404 "not found") |}).
      { unfold getCountryNeighbors, getCountryNeighbors_try, fetchCountryById at 1.
        rewrite Hc. simpl.
        apply elem_of_fetchNeighborsByCountryId in Hn.
        destruct (fetchNeighborsByCountryId st countryID) as [|m ms] eqn:Hq;
          [by apply elem_of_nil in Hn|].
        change (length (m :: ms) =? 0)%nat with false. cbv iota.
        rewrite (all_map_throw _ _ (HttpError 404 "not found") n);
          [reflexivity| |exact Hn|].
        - intros y e'. unfold fetchCountryById.
          destruct (CountryTable st !! y); simpl; [done|]. by intros [= <-].
        - unfold fetchCountryById. by rewrite Hnone. }
      rewrite Hresp. simpl. split; [by right|]. split; [|done].
      intros _. right. by exists n.
  - unfold getCountryNeighbors, getCountryNeighbors_try, fetchCountryById.
    rewrite Hc. simpl. split; [by right|]. split; [by left|done].
Qed.

(** X12. A stored country without any relation is answered with 200 and an
    empty list of countries, under the message "Country neighbours". *)
Theorem getCountryNeighbors_no_relations st countryID :
  is_Some (CountryTable st !! countryID) ->
  (forall n, (countryID, n) ∉ NeighborsTable st) ->
  getCountryNeighbors st countryID =
  {| statusCode := Some 200; body := NeighborCountries "Country neighbours" [] |}.
Proof.
  intros [item Hc] Hnone.
  unfold getCountryNeighbors, getCountryNeighbors_try, fetchCountryById.
  rewrite Hc. simpl. by rewrite fetchNeighborsByCountryId_nil.
Qed.

Lemma getCountryNeighbors_no_relations_witness :
  getCountryNeighbors two_countries "A" =
  {| statusCode := Some 200; body := NeighborCountries "Country neighbours" [] |}.
Proof.
  apply (getCountryNeighbors_no_relations two_countries "A").
  - by exists Alpha.
  - intros n. apply not_elem_of_empty.
Defined.

(** X13. In every store the handlers can reach, [getCountryNeighbors] on a
    stored country answers 200, and the countries of the answer are the
    stored relations of that country, one view each: the [id]s of the views
    are the neighbor identifiers, in the order of the query. *)
Theorem getCountryNeighbors_reachable st countryID :
  reachable st ->
  is_Some (CountryTable st !! countryID) ->
  exists message views,
    getCountryNeighbors st countryID =
    {| statusCode := Some 200; body := NeighborCountries message views |} /\
    view_id <$> views = Some <$> fetchNeighborsByCountryId st countryID /\
    (forall n, n ∈ fetchNeighborsByCountryId st countryID
               <-> (countryID, n) ∈ NeighborsTable st) /\
    Forall2 (fun n view => exists item,
               CountryTable st !! n = Some item /\ view = neighbor_view item)
            (fetchNeighborsByCountryId st countryID) views.
Proof.
  intros Hreach Hc. destruct (reachable_invariant st Hreach) as [Hwf Hri].
  destruct (getCountryNeighbors_views st countryID Hc)
    as (message & items & Hitems & Hresp).
  { intros n Hn. by destruct (Hri _ _ Hn). }
  exists message, (neighbor_view <$> items). split; [done|]. clear Hresp.
  split; [|split; [intros n; apply elem_of_fetchNeighborsByCountryId|]].
  - induction Hitems as [|n item ns items Hn _ IH]; [done|].
    rewrite !fmap_cons. f_equal; [simpl; by destruct (Hwf _ _ Hn)|exact IH].
  - induction Hitems as [|n item ns items Hn _ IH]; [constructor|].
    rewrite fmap_cons. constructor; [by exists item|exact IH].
Qed.

Lemma getCountryNeighbors_reachable_witness :
  exists message views,
    getCountryNeighbors built_store "id-0" =
    {| statusCode := Some 200; body := NeighborCountries message views |} /\
    view_id <$> views = Some <$> fetchNeighborsByCountryId built_store "id-0".
Proof.
  destruct (getCountryNeighbors_reachable built_store "id-0" reachable_built_store)
    as (message & views & H1 & H2 & _).
  - exists (example_country "id-0" "Alpha" "Asia" None). vm_compute. reflexivity.
  - exists message, views. split; [exact H1|exact H2].
Defined.

(** X14. Adding and then listing: in a store the handlers can reach, after
    [addNeighbors] on a stored country, [getCountryNeighbors] on that country
    answers 200 with a view of every proposed identifier that is a stored
    country. *)
Theorem addNeighbors_then_getCountryNeighbors st countryID neighborData n :
  reachable st ->
  is_Some (CountryTable st !! countryID) ->
  n ∈ neighborData ->
  is_Some (CountryTable st !! n) ->
  exists message views view,
    getCountryNeighbors (addNeighbors st countryID neighborData).1 countryID =
    {| statusCode := Some 200; body := NeighborCountries message views |} /\
    view ∈ views /\ view_id view = Some n.
Proof.
  intros Hreach Hc Hn Hcountry.
  set (st' := (addNeighbors st countryID neighborData).1).
  assert (Hreach' : reachable st')
    by (eapply reachable_step; [exact Hreach|apply step_addNeighbors]).
  destruct (reachable_invariant st' Hreach') as [Hwf Hri].
  destruct (addNeighbors_writes st countryID neighborData) as [Htbl _].
  fold st' in Htbl.
  assert (Hrel : (countryID, n) ∈ NeighborsTable st').
  { unfold st'. rewrite (addNeighbors_resolved _ _ _ Hc).
    destruct (addNeighbors_loop _ _ _ _ _ _) as [[st1 e] a] eqn:Hloop.
    destruct (addNeighbors_loop_accounted _ _ _ _ _ _ _ _ Hloop Hn) as [_ H].
    destruct H as [_ H]; [by apply elem_of_fetchAllCountryIds|].
    by destruct (length a =? 0)%nat. }
  destruct (getCountryNeighbors_views st' countryID)
    as (message & items & Hitems & Hresp).
  { by rewrite Htbl. }
  { intros m Hm. by destruct (Hri _ _ Hm). }
  apply elem_of_fetchNeighborsByCountryId, list_elem_of_lookup in Hrel as [i Hi].
  destruct (Forall2_lookup_l _ _ _ _ _ Hitems Hi) as (item & Hitem & Hlookup).
  exists message, (neighbor_view <$> items), (neighbor_view item).
  split; [done|]. split.
  - apply list_elem_of_fmap. exists item. split; [done|].
    apply list_elem_of_lookup. by exists i.
  - simpl. by destruct (Hwf _ _ Hlookup).
Qed.

Lemma addNeighbors_then_getCountryNeighbors_witness :
  exists message views view,
    getCountryNeighbors (addNeighbors built_store "id-1" ["id-0"]).1 "id-1" =
    {| statusCode := Some 200; body := NeighborCountries message views |} /\
    view ∈ views /\ view_id view = Some "id-0".
Proof.
  apply (addNeighbors_then_getCountryNeighbors built_store "id-1" ["id-0"] "id-0"
           reachable_built_store).
  - exists (example_country "id-1" "Beta" "Europe" None). vm_compute. reflexivity.
  - apply elem_of_cons. left. reflexivity.
  - exists (example_country "id-0" "Alpha" "Asia" None). vm_compute. reflexivity.
Defined.

(** ** The order of the listing *)

Lemma string_compare_le_trans (a b c : string) :
  String.compare a b <> Gt -> String.compare b c <> Gt -> String.compare a c <> Gt.
Proof.
  revert b c. induction a as [|x a IH]; intros [|y b] [|z c]; simpl; try congruence.
  unfold Ascii.compare.
  destruct (N.compare_spec (N_of_ascii x) (N_of_ascii y)) as [Hxy|Hxy|Hxy];
    destruct (N.compare_spec (N_of_ascii y) (N_of_ascii z)) as [Hyz|Hyz|Hyz];
    try congruence.
  - rewrite Hxy, Hyz, N.compare_refl. apply IH.
  - intros _ _. rewrite Hxy. apply N.compare_lt_iff in Hyz. by rewrite Hyz.
  - intros _ _. rewrite <- Hyz. apply N.compare_lt_iff in Hxy. by rewrite Hxy.
  - intros _ _. assert (H : (N_of_ascii x < N_of_ascii z)%N) by lia.
    apply N.compare_lt_iff in H. by rewrite H.
Qed.

Lemma string_ltb_asym (a b : string) : String.ltb a b = true -> String.ltb b a = false.
Proof.
  unfold String.ltb. rewrite (String.compare_antisym b a).
  by destruct (String.compare a b).
Qed.

Lemma string_ltb_le_trans (a b c : string) :
  String.ltb b a = false -> String.ltb c b = false -> String.ltb c a = false.
Proof.
  unfold String.ltb. intros Hab Hbc.
  assert (H1 : String.compare a b <> Gt).
  { rewrite (String.compare_antisym b a) in Hab. by destruct (String.compare a b). }
  assert (H2 : String.compare b c <> Gt).
  { rewrite (String.compare_antisym c b) in Hbc. by destruct (String.compare b c). }
  pose proof (string_compare_le_trans a b c H1 H2) as H.
  rewrite (String.compare_antisym c a). by destruct (String.compare a c).
Qed.

Lemma Qlt_bool_false (x y : Q) : Qlt_bool x y = false <-> (y <= x)%Q.
Proof.
  unfold Qlt_bool. rewrite negb_false_iff. apply Qle_bool_iff.
Qed.

Lemma Qlt_bool_asym (a b : Q) : Qlt_bool a b = true -> Qlt_bool b a = false.
Proof.
  intros H. apply Qlt_bool_false.
  destruct (Qlt_le_dec a b) as [Hlt|Hle]; [by apply Qlt_le_weak|].
  apply Qlt_bool_false in Hle. congruence.
Qed.

Lemma Qlt_bool_le_trans (a b c : Q) :
  Qlt_bool b a = false -> Qlt_bool c b = false -> Qlt_bool c a = false.
Proof.
  rewrite !Qlt_bool_false. intros Hab Hbc. by apply Qle_trans with b.
Qed.

Lemma field_lt_asym sortKey a b :
  field_lt sortKey a b = true -> field_lt sortKey b a = false.
Proof.
  unfold field_lt, lt_undefined.
  destruct sortKey;
    [destruct (name a), (name b)
    |destruct (population a), (population b)
    |destruct (area a), (area b)];
    try done; auto using string_ltb_asym, Qlt_bool_asym.
Qed.

(** Not-above is transitive through a record that has the field. *)
Lemma field_lt_le_trans sortKey a b c :
  field_missing sortKey b = false ->
  field_lt sortKey b a = false -> field_lt sortKey c b = false ->
  field_lt sortKey c a = false.
Proof.
  unfold field_lt, field_missing, lt_undefined.
  destruct sortKey;
    [destruct (name a), (name b), (name c)
    |destruct (population a), (population b), (population c)
    |destruct (area a), (area b), (area c)];
    try done; eauto using string_ltb_le_trans, Qlt_bool_le_trans.
Qed.

Lemma in_order_trans sortKey sortDirection a b c :
  in_order sortKey sortDirection a b -> in_order sortKey sortDirection b c ->
  in_order sortKey sortDirection a c.
Proof.
  unfold in_order. intros (Ha & Hb & Hab) (_ & Hc & Hbc).
  split; [done|]. split; [done|].
  destruct (0 <? sortDirection); eauto using field_lt_le_trans.
Qed.

(** The test of [sort_insert] on the comparator, for a direction that is
    not zero. *)
Lemma comparator_positive sortKey sortDirection x y :
  sortDirection <> 0 ->
  (0 <? comparator sortKey sortDirection x y) =
  if 0 <? sortDirection then field_lt sortKey y x else field_lt sortKey x y.
Proof.
  intros Hd. unfold comparator.
  destruct (field_lt sortKey x y) eqn:Hxy.
  - rewrite (field_lt_asym _ _ _ Hxy).
    destruct (Z.ltb_spec 0 sortDirection), (Z.ltb_spec 0 (-1 * sortDirection)); lia.
  - destruct (field_lt sortKey y x).
    + destruct (Z.ltb_spec 0 sortDirection), (Z.ltb_spec 0 (1 * sortDirection)); lia.
    + by destruct (0 <? sortDirection).
Qed.

Lemma sort_insert_Permutation {A : Type} (cmp : A -> A -> Z) x (l : list A) :
  sort_insert cmp x l ≡ₚ x :: l.
Proof.
  induction l as [|y l IH]; simpl; [done|].
  destruct (0 <? cmp x y); [|done]. rewrite IH. apply perm_swap.
Qed.

Lemma Array_sort_Permutation {A : Type} (cmp : A -> A -> Z) (l : list A) :
  Array_sort cmp l ≡ₚ l.
Proof.
  induction l as [|x l IH]; simpl; [done|].
  by rewrite sort_insert_Permutation, IH.
Qed.

Lemma sort_insert_in_order sortKey sortDirection x l :
  sortDirection <> 0 ->
  field_missing sortKey x = false ->
  Forall (fun a => field_missing sortKey a = false) l ->
  StronglySorted (in_order sortKey sortDirection) l ->
  StronglySorted (in_order sortKey sortDirection)
    (sort_insert (comparator sortKey sortDirection) x l).
Proof.
  intros Hd Hx Hl Hsorted.
  induction Hsorted as [|y l Hsorted IH Hy]; simpl; [by repeat constructor|].
  apply Forall_cons in Hl as [Hpy Hl].
  rewrite comparator_positive by done.
  destruct (if 0 <? sortDirection then field_lt sortKey y x else field_lt sortKey x y)
    eqn:Hcmp.
  - constructor; [by apply IH|].
    rewrite sort_insert_Permutation. constructor; [|done].
    split; [done|]. split; [done|].
    destruct (0 <? sortDirection); by apply field_lt_asym.
  - assert (Hxy : in_order sortKey sortDirection x y).
    { split; [done|]. split; [done|]. by destruct (0 <? sortDirection). }
    constructor; [by constructor|]. constructor; [done|].
    eapply Forall_impl; [exact Hy|]. intros z Hz. by apply in_order_trans with y.
Qed.

Lemma Array_sort_in_order sortKey sortDirection l :
  sortDirection <> 0 ->
  Forall (fun a => field_missing sortKey a = false) l ->
  StronglySorted (in_order sortKey sortDirection)
    (Array_sort (comparator sortKey sortDirection) l).
Proof.
  intros Hd. induction l as [|x l IH]; intros Hl; simpl; [constructor|].
  apply Forall_cons in Hl as [Hx Hl].
  apply sort_insert_in_order; [done|done| |by apply IH].
  by rewrite Array_sort_Permutation.
Qed.

Lemma Array_sort_of_sorted sortKey sortDirection l :
  sortDirection <> 0 ->
  StronglySorted (in_order sortKey sortDirection) l ->
  Array_sort (comparator sortKey sortDirection) l = l.
Proof.
  intros Hd. induction 1 as [|x l Hsorted IH Hx]; simpl; [done|].
  rewrite IH. destruct l as [|y l]; simpl; [done|].
  apply Forall_cons in Hx as [(_ & _ & Hxy) _].
  rewrite comparator_positive by done.
  destruct (0 <? sortDirection); [by rewrite Hxy|by rewrite Hxy].
Qed.

Lemma StronglySorted_take {A : Type} (R : relation A) (l : list A) n :
  StronglySorted R l -> StronglySorted R (take n l).
Proof.
  intros Hl. revert n. induction Hl as [|x l Hl IH Hx]; intros [|n]; simpl;
    try constructor; [apply IH|by apply Forall_take].
Qed.

Lemma StronglySorted_drop {A : Type} (R : relation A) (l : list A) n :
  StronglySorted R l -> StronglySorted R (drop n l).
Proof.
  intros Hl. revert n. induction Hl as [|x l Hl IH Hx]; intros [|n]; simpl;
    [constructor|constructor|by constructor|apply IH].
Qed.

Lemma sort_criteria_direction sort_by :
  (sort_criteria sort_by).2 = 1 \/ (sort_criteria sort_by).2 = -1.
Proof.
  unfold sort_criteria.
  repeat (match goal with |- context [String.eqb ?a ?b] =>
            destruct (String.eqb a b) end; [simpl; auto|]).
  simpl. auto.
Qed.

(** The items a scan returns. *)
Lemma elem_of_scan st operand item :
  item ∈ scan st operand <->
  (exists k, CountryTable st !! k = Some item) /\
  match operand with
  | Some source => FilterExpression source item = true
  | None => True
  end.
Proof.
  assert (Hall : item ∈ (map_to_list (CountryTable st)).*2
                 <-> exists k, CountryTable st !! k = Some item).
  { rewrite list_elem_of_fmap. split.
    - intros ([k x] & -> & H). exists k. by apply elem_of_map_to_list.
    - intros [k H]. exists (k, item). split; [done|]. by apply elem_of_map_to_list. }
  unfold scan. destruct operand as [source|]; [|rewrite Hall; tauto].
  rewrite list_elem_of_filter, Hall, Is_true_true. tauto.
Qed.

(** X15. Sorting what is sorted changes nothing: for a direction that is not
    zero and records that all have the sort field, the sort returns a
    rearrangement of its input in which every record is in order with every
    later one, and sorting that result again returns it as it is. *)
Theorem Array_sort_idempotent sortKey sortDirection l :
  sortDirection <> 0 ->
  Forall (fun a => field_missing sortKey a = false) l ->
  let sorted := Array_sort (comparator sortKey sortDirection) l in
  sorted ≡ₚ l /\
  StronglySorted (in_order sortKey sortDirection) sorted /\
  Array_sort (comparator sortKey sortDirection) sorted = sorted.
Proof.
  intros Hd Hl sorted. subst sorted.
  split; [apply Array_sort_Permutation|].
  split; [by apply Array_sort_in_order|].
  apply Array_sort_of_sorted; [done|]. by apply Array_sort_in_order.
Qed.

Lemma Array_sort_idempotent_witness :
  Array_sort (comparator SortPopulation (-1))
    (Array_sort (comparator SortPopulation (-1)) [Alpha; Beta])
  = Array_sort (comparator SortPopulation (-1)) [Alpha; Beta].
Proof.
  refine (proj2 (proj2 (Array_sort_idempotent SortPopulation (-1) [Alpha; Beta] _ _))).
  - lia.
  - repeat constructor.
Defined.

(** X16. The listing is ordered: when every stored country has the field
    the request sorts by and the search is accepted, the answer is 200 and, in
    its list, every item is in order with every later item, ascending or
    descending as [sort_by] asks. *)
Theorem listing_sorted RegExp_source st q operand :
  search_operand RegExp_source (search q) = Ok operand ->
  let criteria := sort_criteria (default "a_to_z" (sort_by q)) in
  (forall k item, CountryTable st !! k = Some item ->
     field_missing criteria.1 item = false) ->
  exists data,
    getAllCountriesPaginated RegExp_source st q =
    {| statusCode := Some 200;
       body := Listing.CountryList "Country list" data |} /\
    StronglySorted (in_order criteria.1 criteria.2) (Listing.list data).
Proof.
  intros Hsearch criteria Hpresent.
  pose proof (sort_criteria_direction (default "a_to_z" (sort_by q))) as Hd.
  fold criteria in Hd. unfold getAllCountriesPaginated. rewrite Hsearch.
  fold criteria. destruct criteria as [sortKey sortDirection]. simpl in *.
  eexists. split; [reflexivity|]. simpl. unfold Js.slice.
  apply StronglySorted_take, StronglySorted_drop, Array_sort_in_order; [lia|].
  apply Forall_forall. intros item Hitem.
  apply elem_of_scan in Hitem as [[k Hk] _]. by apply (Hpresent k).
Qed.

Lemma listing_sorted_witness :
  exists data,
    getAllCountriesPaginated words_RegExp_source two_countries second_page =
    {| statusCode := Some 200;
       body := Listing.CountryList "Country list" data |} /\
    StronglySorted (in_order SortName (-1)) (Listing.list data).
Proof.
  apply (listing_sorted words_RegExp_source two_countries second_page None eq_refl).
  intros k item Hk. simpl in Hk.
  destruct (decide (k = "A")) as [->|Ha].
  - rewrite lookup_insert_eq in Hk. injection Hk as <-. reflexivity.
  - rewrite lookup_insert_ne in Hk by done.
    destruct (decide (k = "B")) as [->|Hb].
    + rewrite lookup_insert_eq in Hk. injection Hk as <-. reflexivity.
    + rewrite lookup_insert_ne, lookup_empty in Hk by done. discriminate Hk.
Defined.

(** X17. The names in a store the handlers can reach are never missing, so
    there the listing by name, which is also the listing for an absent or
    unknown [sort_by], is always ordered. *)
Theorem listing_by_name_sorted RegExp_source st q operand :
  reachable st ->
  search_operand RegExp_source (search q) = Ok operand ->
  (sort_criteria (default "a_to_z" (sort_by q))).1 = SortName ->
  exists data,
    getAllCountriesPaginated RegExp_source st q =
    {| statusCode := Some 200;
       body := Listing.CountryList "Country list" data |} /\
    StronglySorted
      (in_order SortName (sort_criteria (default "a_to_z" (sort_by q))).2)
      (Listing.list data).
Proof.
  intros Hreach Hsearch Hkey.
  destruct (reachable_invariant st Hreach) as [Hwf _].
  pose proof (sort_criteria_direction (default "a_to_z" (sort_by q))) as Hd.
  unfold getAllCountriesPaginated. rewrite Hsearch.
  destruct (sort_criteria _) as [sortKey sortDirection]. simpl in *. subst sortKey.
  eexists. split; [reflexivity|]. simpl. unfold Js.slice.
  apply StronglySorted_take, StronglySorted_drop, Array_sort_in_order; [lia|].
  apply Forall_forall. intros item Hitem.
  apply elem_of_scan in Hitem as [[k Hk] _].
  destruct (Hwf k item Hk) as [Hvalid _].
  unfold countrySchema_validate, required in Hvalid. simpl.
  by destruct (name item).
Qed.

Lemma listing_by_name_sorted_witness :
  exists data,
    getAllCountriesPaginated words_RegExp_source built_store no_parameters =
    {| statusCode := Some 200;
       body := Listing.CountryList "Country list" data |} /\
    StronglySorted (in_order SortName 1) (Listing.list data).
Proof.
  exact (listing_by_name_sorted words_RegExp_source built_store no_parameters None
           reachable_built_store eq_refl eq_refl).
Defined.

(** ** The listing: status, search and edge values *)

(** X18. The listing answers 200 or 500 and nothing else, and 500 exactly
    when there is a search text that is not empty and the regular-expression
    constructor throws on it; page, limit and [sort_by] never make it fail. *)
Theorem listing_status RegExp_source st q :
  let response := getAllCountriesPaginated RegExp_source st q in
  (statusCode response = Some 200 \/ statusCode response = Some 500) /\
  (statusCode response = Some 500 <->
   exists s, search q = Some s /\ s <> "" /\ RegExp_source s = None).
Proof.
  intros response. subst response. unfold getAllCountriesPaginated, search_operand.
  destruct (sort_criteria _) as [sortKey sortDirection].
  destruct (search q) as [s|] eqn:Hs.
  - destruct (String.eqb_spec s "") as [->|Hne].
    + simpl. split; [by left|]. split; [done|]. by intros (s & [= <-] & Hne & _).
    + destruct (RegExp_source s) as [source|] eqn:Hsrc; simpl.
      * split; [by left|]. split; [done|].
        intros (s' & [= <-] & _ & Hnone). congruence.
      * split; [by right|]. split; [|done]. intros _. by exists s.
  - simpl. split; [by left|]. split; [done|]. by intros (s & [= ] & _).
Qed.

(** X19. The listing invents nothing: when the search is accepted, every
    item of the returned list is an item of [CountryTable], the list is no
    longer than [total], which counts the stored items that pass the filter,
    and with a search in force every returned item carries the [source] of
    the regular expression, letter case included, in its name, region or
    subregion. *)
Theorem listing_items_from_store RegExp_source st q operand :
  search_operand RegExp_source (search q) = Ok operand ->
  exists data,
    getAllCountriesPaginated RegExp_source st q =
    {| statusCode := Some 200;
       body := Listing.CountryList "Country list" data |} /\
    Listing.total data = Js.Int (Z.of_nat (length (scan st operand))) /\
    (length (Listing.list data) <= length (scan st operand))%nat /\
    forall item, item ∈ Listing.list data ->
      (exists k, CountryTable st !! k = Some item) /\
      forall source, operand = Some source -> FilterExpression source item = true.
Proof.
  intros Hsearch. unfold getAllCountriesPaginated. rewrite Hsearch.
  destruct (sort_criteria _) as [sortKey sortDirection].
  eexists. split; [reflexivity|]. simpl. rewrite Array_sort_length.
  split; [done|]. unfold Js.slice. split.
  - rewrite length_take, length_drop, Array_sort_length. lia.
  - intros item Hitem.
    apply subseteq_take, subseteq_drop in Hitem.
    rewrite Array_sort_Permutation in Hitem.
    apply elem_of_scan in Hitem as [Hstored Hfilter].
    split; [done|]. by intros source ->.
Qed.

Lemma listing_items_from_store_witness :
  exists data,
    getAllCountriesPaginated words_RegExp_source two_countries search_alpha =
    {| statusCode := Some 200;
       body := Listing.CountryList "Country list" data |} /\
    Listing.total data
    = Js.Int (Z.of_nat (length (scan two_countries (Some "alpha")))).
Proof.
  destruct (listing_items_from_store words_RegExp_source two_countries search_alpha
              (Some "alpha") eq_refl) as (data & H1 & H2 & _).
  exists data. split; [exact H1|exact H2].
Defined.

(** X20. An empty search text is no search: with [search] absent or empty
    the answer is 200 and [total] is the number of stored countries, whatever
    the other parameters are. *)
Theorem listing_without_search RegExp_source st q :
  search q = None \/ search q = Some "" ->
  exists data,
    getAllCountriesPaginated RegExp_source st q =
    {| statusCode := Some 200;
       body := Listing.CountryList "Country list" data |} /\
    Listing.total data = Js.Int (Z.of_nat (size (CountryTable st))).
Proof.
  intros Hs. unfold getAllCountriesPaginated, search_operand.
  destruct (sort_criteria _) as [sortKey sortDirection].
  assert (Hop : match search q with
                | None => Ok None
                | Some s => if String.eqb s "" then Ok None
                            else match RegExp_source s with
                                 | Some source => Ok (Some source)
                                 | None => Throw SyntaxError
                                 end
                end = Ok None) by (by destruct Hs as [-> | ->]).
  rewrite Hop. eexists. split; [reflexivity|]. simpl.
  rewrite Array_sort_length. unfold scan.
  by rewrite length_fmap, length_map_to_list.
Qed.

Lemma listing_without_search_witness :
  exists data,
    getAllCountriesPaginated words_RegExp_source two_countries search_empty =
    {| statusCode := Some 200;
       body := Listing.CountryList "Country list" data |} /\
    Listing.total data = Js.Int (Z.of_nat (size (CountryTable two_countries))).
Proof.
  apply (listing_without_search words_RegExp_source two_countries search_empty).
  right. reflexivity.
Defined.

Lemma sort_criteria_unknown s : s ∉ known_sort_by -> sort_criteria s = (SortName, 1).
Proof.
  intros Hs. unfold sort_criteria.
  repeat (match goal with |- context [String.eqb s ?b] =>
            destruct (String.eqb_spec s b) as [->|_];
            [exfalso; apply Hs; unfold known_sort_by;
             repeat (first [apply list_elem_of_here | apply list_elem_of_further])|]
          end).
  done.
Qed.

(** X21. A [sort_by] that is not one of the six known values is handled as
    if it were absent: the answer is the one for the same request without
    [sort_by], which is the listing by ascending name. *)
Theorem listing_unknown_sort_by RegExp_source st q s :
  sort_by q = Some s ->
  s ∉ known_sort_by ->
  getAllCountriesPaginated RegExp_source st q =
  getAllCountriesPaginated RegExp_source st
    {| page := page q; limit := limit q; sort_by := None; search := search q |}.
Proof.
  intros Hq Hs. unfold getAllCountriesPaginated. simpl.
  rewrite Hq. simpl. by rewrite (sort_criteria_unknown s Hs).
Qed.

Lemma listing_unknown_sort_by_witness :
  getAllCountriesPaginated words_RegExp_source two_countries sort_by_unknown =
  getAllCountriesPaginated words_RegExp_source two_countries no_parameters.
Proof.
  apply (listing_unknown_sort_by words_RegExp_source two_countries sort_by_unknown
           "newest" eq_refl).
  unfold known_sort_by. intros H.
  repeat (apply elem_of_cons in H as [H|H]; [discriminate H|]).
  by apply elem_of_nil in H.
Defined.

Lemma slice_at_zero {A : Type} (arr : list A) s e :
  Js.ToIntegerOrInfinity s = Js.Fin 0 ->
  Js.ToIntegerOrInfinity e = Js.Fin 0 ->
  Js.slice arr s e = [].
Proof.
  intros Hs He. unfold Js.slice. rewrite Hs, He. simpl.
  rewrite Z.min_l by lia. done.
Qed.

(** With a limit of zero the two bounds of the slice are zero or [NaN]. *)
Lemma skip_limit_zero x :
  Js.ToIntegerOrInfinity (Js.mul (Js.sub x (Js.Int 1)) (Js.Int 0)) = Js.Fin 0 /\
  Js.ToIntegerOrInfinity
    (Js.add (Js.mul (Js.sub x (Js.Int 1)) (Js.Int 0)) (Js.Int 0)) = Js.Fin 0.
Proof.
  destruct x as [| | | |p]; try (split; reflexivity).
  unfold Js.sub, Js.mul. simpl. rewrite Z.mul_0_r. simpl.
  by destruct (p - 1 <? 0).
Qed.

(** X22. A limit of zero: whatever the page is, the list is empty; [pages] is
    infinite when some record passes the filter and [NaN] when none does, so
    that for a page that parses to an integer [has_next] is true exactly when
    some record passes the filter, although no page holds any item. *)
Theorem listing_limit_zero RegExp_source st q operand :
  Js.parseInt (default "10" (limit q)) = Js.Int 0 ->
  search_operand RegExp_source (search q) = Ok operand ->
  exists data,
    getAllCountriesPaginated RegExp_source st q =
    {| statusCode := Some 200;
       body := Listing.CountryList "Country list" data |} /\
    Listing.list data = [] /\
    Listing.pages data
    = (if (length (scan st operand) =? 0)%nat then Js.NaN else Js.PosInf) /\
    (forall p, Js.parseInt (default "1" (page q)) = Js.Int p ->
       Listing.has_next data = negb (length (scan st operand) =? 0)%nat).
Proof.
  intros Hl Hsearch. unfold getAllCountriesPaginated. rewrite Hsearch, Hl.
  destruct (sort_criteria _) as [sortKey sortDirection].
  eexists. split; [reflexivity|].
  cbn [Listing.list Listing.pages Listing.has_next]. rewrite Array_sort_length.
  assert (Hpages : Js.ceil_div (Js.Int (Z.of_nat (length (scan st operand)))) (Js.Int 0)
                   = if (length (scan st operand) =? 0)%nat then Js.NaN else Js.PosInf).
  { destruct (length (scan st operand)) as [|n]; [done|].
    unfold Js.ceil_div. simpl. done. }
  rewrite Hpages. split; [|split; [done|]].
  - apply slice_at_zero; apply (skip_limit_zero (Js.parseInt (default "1" (page q)))).
  - intros p ->. by destruct (length (scan st operand) =? 0)%nat.
Qed.

Lemma listing_limit_zero_witness :
  exists data,
    getAllCountriesPaginated words_RegExp_source two_countries limit_zero =
    {| statusCode := Some 200;
       body := Listing.CountryList "Country list" data |} /\
    Listing.list data = [] /\
    Listing.pages data = Js.PosInf /\
    Listing.has_next data = true.
Proof.
  destruct (listing_limit_zero words_RegExp_source two_countries limit_zero None
              eq_refl eq_refl) as (data & H1 & H2 & H3 & H4).
  exists data. split; [exact H1|]. split; [exact H2|]. split.
  - rewrite H3. vm_compute. reflexivity.
  - rewrite (H4 3 eq_refl). vm_compute. reflexivity.
Defined.

(** X23. A page that is zero or negative is not refused.  With a positive
    limit [l] and a page [p <= 0], [has_prev] is false and the list is read
    from the end of the sorted records: it runs from position
    [max (n + (p - 1) * l) 0] up to position [max (n + p * l) 0], where [n]
    is the number of records, and for page 0 it is empty. *)
Theorem listing_page_not_positive RegExp_source st q p l operand :
  Js.parseInt (default "1" (page q)) = Js.Int p -> p <= 0 ->
  Js.parseInt (default "10" (limit q)) = Js.Int l -> 0 < l ->
  search_operand RegExp_source (search q) = Ok operand ->
  let criteria := sort_criteria (default "a_to_z" (sort_by q)) in
  let sorted := Array_sort (comparator criteria.1 criteria.2) (scan st operand) in
  let n := Z.of_nat (length sorted) in
  let first := Z.max (n + (p - 1) * l) 0 in
  let last := if p =? 0 then 0 else Z.max (n + p * l) 0 in
  exists data,
    getAllCountriesPaginated RegExp_source st q =
    {| statusCode := Some 200;
       body := Listing.CountryList "Country list" data |} /\
    Listing.has_prev data = false /\
    Listing.list data = take (Z.to_nat (last - first)) (drop (Z.to_nat first) sorted) /\
    (p = 0 -> Listing.list data = []).
Proof.
  intros Hp Hpneg Hl Hlpos Hsearch criteria sorted n first last.
  unfold getAllCountriesPaginated. rewrite Hp, Hl, Hsearch.
  fold criteria. destruct criteria as [sortKey sortDirection] eqn:Hcrit.
  simpl in sorted. fold sorted.
  assert (Hskip : Js.mul (Js.sub (Js.Int p) (Js.Int 1)) (Js.Int l)
                  = Js.Int ((p - 1) * l)).
  { unfold Js.sub, Js.mul. simpl.
    destruct (Z.eqb_spec ((p - 1) * l) 0) as [Hz|_]; [nia|done]. }
  rewrite Hskip.
  assert (Hend : Js.add (Js.Int ((p - 1) * l)) (Js.Int l) = Js.Int (p * l))
    by (simpl; f_equal; lia).
  rewrite Hend.
  assert (Hslice : Js.slice sorted (Js.Int ((p - 1) * l)) (Js.Int (p * l))
                   = take (Z.to_nat (last - first)) (drop (Z.to_nat first) sorted)).
  { unfold Js.slice. simpl. fold n.
    destruct (Z.ltb_spec ((p - 1) * l) 0); [|nia]. fold first.
    subst last. destruct (Z.eqb_spec p 0) as [->|Hne].
    - change (0 * l) with 0. change (0 <? 0) with false. cbv iota.
      rewrite (Z.min_l 0 n) by lia. f_equal. lia.
    - destruct (Z.ltb_spec (p * l) 0); [|nia]. f_equal. lia. }
  eexists. split; [reflexivity|]. simpl. rewrite Hslice.
  split; [by destruct (Z.ltb_spec 1 p); [lia|]|]. split; [done|].
  intros ->. subst last. simpl.
  replace (Z.to_nat (0 - first)) with 0%nat by lia. done.
Qed.

Lemma listing_page_not_positive_witness :
  exists data,
    getAllCountriesPaginated words_RegExp_source two_countries page_minus_one =
    {| statusCode := Some 200;
       body := Listing.CountryList "Country list" data |} /\
    Listing.has_prev data = false /\
    Listing.list data = [Alpha].
Proof.
  destruct (listing_page_not_positive words_RegExp_source two_countries page_minus_one
              (-1) 1 None) as (data & H1 & H2 & H3 & _).
  - reflexivity.
  - lia.
  - reflexivity.
  - lia.
  - reflexivity.
  - exists data. split; [exact H1|]. split; [exact H2|].
    rewrite H3. vm_compute. reflexivity.
Defined.
